(** * streamdeck-nowplaying: the LCD renderer (src/src/renderer.js)

    A shallow embedding of [NowPlayingRenderer] and of [escapeXml], and the
    properties of the renderer's specification stated over it.

    Conventions of the embedding.
    - A JavaScript string is the list of its UTF-16 code units ([jstr]);
      [length] is the JavaScript [length].
    - A JavaScript number that the renderer divides and rounds (duration,
      position) is a finite IEEE-754 double, denoted by the rational it
      stands for ([Q]); [None] stands for [undefined]. An arithmetic
      operation on numbers is the exact operation followed by [binary64],
      the rounding to the nearest double (ties to the even significand,
      gradual underflow). A result beyond the largest double, [Infinity] in
      JavaScript, is not modelled: [noOverflow] names the range.
      Pixel quantities are integers ([Z]).
    - An exception is a value: a computation that may throw returns an
      [outcome]; [await] is sequencing.
    - The raster library (sharp) and Node's [Buffer] are not part of the
      repository: they are a record of operations ([Raster]) the renderer is
      parametrised by, each of which may throw. *)

From Stdlib Require Import ZArith QArith Qround Qminmax Qabs Qpower.
From Stdlib Require Import List String Ascii Bool Lia Lqa.
From Stdlib Require Import DecimalString.
Import ListNotations.

Local Open Scope Z_scope.

(** ** JavaScript strings *)

Module JS.

Definition cu := N.
Definition jstr := list cu.

Definition lit (s : string) : jstr := map N_of_ascii (list_ascii_of_string s).

(** Characters the renderer names. *)
Definition amp : cu := 38%N.
Definition lt : cu := 60%N.
Definition gt : cu := 62%N.
Definition dquote : cu := 34%N.
Definition squote : cu := 39%N.
Definition comma : cu := 44%N.
Definition newline : cu := 10%N.
Definition space : cu := 32%N.

Definition spaces (n : nat) : jstr := repeat space n.

(** [s.length] *)
Definition len (s : jstr) : Z := Z.of_nat (List.length s).

(** [s.substring(0, e)]: a negative end counts as 0, an end beyond the
    string as the length. *)
Definition substring0 (e : Z) (s : jstr) : jstr := firstn (Z.to_nat e) s.

(** [s.replace(/c/g, by)] for a one-character pattern. *)
Definition replaceAll (c : cu) (by_ : jstr) (s : jstr) : jstr :=
  flat_map (fun x => if N.eqb x c then by_ else [x]) s.

(** [s.startsWith(p)] *)
Fixpoint startsWith (p s : jstr) : bool :=
  match p, s with
  | [], _ => true
  | _ :: _, [] => false
  | a :: p', b :: s' => N.eqb a b && startsWith p' s'
  end.

(** [s.split(c)] for a one-character separator: never empty. *)
Fixpoint split (c : cu) (s : jstr) : list jstr :=
  match s with
  | [] => [[]]
  | x :: s' =>
      if N.eqb x c then [] :: split c s'
      else match split c s' with
           | [] => [[x]]
           | h :: t => (x :: h) :: t
           end
  end.

(** [a.join(sep)] on an array of strings. *)
Fixpoint join (sep : jstr) (a : list jstr) : jstr :=
  match a with
  | [] => []
  | [x] => x
  | x :: rest => x ++ sep ++ join sep rest
  end.

(** [`${n}`] for an integer. *)
Definition show (n : Z) : jstr := lit (NilZero.string_of_int (Z.to_int n)).

(** *** Numbers

    A finite double is denoted by its value. The doubles are 0 and the
    numbers [m * 2^k] with [m] an integer of at most 53 bits and
    [k >= -1074]; [binary64] rounds a rational to the nearest of them, as
    every arithmetic operation of JavaScript does with its exact result. *)

Definition pow2 (k : Z) : Q := (2 ^ k)%Q.

(** The integer nearest to [y]; of two equally near, the even one. *)
Definition nearestEven (y : Q) : Z :=
  let f := Qfloor y in
  match (y - inject_Z f ?= 1 # 2)%Q with
  | Lt => f
  | Gt => f + 1
  | Eq => if Z.even f then f else f + 1
  end.

(** The multiple of [2^k] nearest to [y]. *)
Definition grid (k : Z) (y : Q) : Q :=
  (inject_Z (nearestEven (y / pow2 k)) * pow2 k)%Q.

(** The binary exponent of [x > 0]: [2^(ilog2 x) <= x < 2^(ilog2 x + 1)]. *)
Definition ilog2 (x : Q) : Z :=
  let l := Z.log2 (Qnum x) - Z.log2 (Zpos (Qden x)) in
  if Qle_bool (pow2 l) x then l else l - 1.

(** The exponent of the last bit of a 53-bit significand at [x]; below
    [2^-1022] the doubles are the multiples of [2^-1074]. *)
Definition ulpExponent (x : Q) : Z := Z.max (ilog2 x - 52) (-1074).

Definition roundPositive (x : Q) : Q := grid (ulpExponent x) x.

(** The double nearest to [x], its exponent unbounded above. *)
Definition binary64 (x : Q) : Q :=
  match (x ?= 0)%Q with
  | Eq => 0%Q
  | Gt => roundPositive x
  | Lt => (- roundPositive (- x))%Q
  end.

(** [x] is the value of a double. *)
Definition isDouble (x : Q) : Prop := binary64 x == x.


(** [Math.round] of a finite double: the nearest integer, ties upwards;
    it is exact. *)
Definition round (x : Q) : Z := Qfloor (x + (1 # 2)).

(** An attribute value between double quotes. *)
Definition quoted (v : jstr) : jstr := dquote :: v ++ [dquote].

End JS.
Import JS.

(** ** renderer.js: text *)

(** [escapeXml(str)] *)
Definition escapeXml (str : jstr) : jstr :=
  match str with
  | [] => []
  | _ =>
      replaceAll squote (lit "&#39;")
        (replaceAll dquote (lit "&quot;")
           (replaceAll gt (lit "&gt;")
              (replaceAll lt (lit "&lt;")
                 (replaceAll amp (lit "&amp;") str))))
  end.

(** The [artist] field as the media session delivers it: absent, a single
    string, or an array of strings. *)
Inductive artistField :=
| ArtistAbsent
| ArtistString (s : jstr)
| ArtistArray (a : list jstr).

Record TrackInfo := {
  trackName : option jstr;
  artist : artistField;
  album : option jstr;
  thumbnail : option jstr;
  duration : option Q;
  position : option Q
}.

(** [x || d] on an optional string: absent and empty are falsy. *)
Definition orDefault (x : option jstr) (d : jstr) : jstr :=
  match x with
  | None => d
  | Some [] => d
  | Some s => s
  end.

(** The local [truncate] of [buildTextSvg]. *)
Definition truncate (text : jstr) (maxChars : Z) : jstr :=
  if len text >? maxChars then substring0 (maxChars - 3) text ++ lit "..."
  else text.

Definition titleBudget : Z := 28.
Definition artistBudget : Z := 32.

Definition titleOf (t : TrackInfo) : jstr :=
  orDefault (trackName t) (lit "Unknown Track").

Definition artistOf (t : TrackInfo) : jstr :=
  match artist t with
  | ArtistArray a => join (lit ", ") a
  | ArtistString s => orDefault (Some s) (lit "Unknown Artist")
  | ArtistAbsent => lit "Unknown Artist"
  end.

(** The two interpolations of the text template. *)
Definition titleText (t : TrackInfo) : jstr :=
  escapeXml (truncate (titleOf t) titleBudget).
Definition artistText (t : TrackInfo) : jstr :=
  escapeXml (truncate (artistOf t) artistBudget).

Definition svgNs : jstr := lit "http://www.w3.org/2000/svg".

Definition svgOpen (w h : Z) : jstr :=
  lit "<svg width=" ++ quoted (show w) ++ lit " height=" ++ quoted (show h)
  ++ lit " xmlns=" ++ quoted svgNs ++ lit ">".

Definition svgClose : jstr := lit "</svg>".

Definition line (indent : nat) (s : jstr) : jstr :=
  newline :: spaces indent ++ s.

Definition textStyle (indent : nat) : jstr :=
  line indent (lit "<style>")
  ++ line (indent + 2)
       (lit ".title { font-family: Arial, sans-serif; font-size: 20px; font-weight: normal; fill: white; }")
  ++ line (indent + 2)
       (lit ".artist { font-family: Arial, sans-serif; font-size: 16px; fill: #B3B3B3; }")
  ++ line indent (lit "</style>").

Definition textElem (x : jstr) (y : Z) (cls : string) (content : jstr) : jstr :=
  lit "<text x=" ++ quoted x ++ lit " y=" ++ quoted (show y)
  ++ lit " class=" ++ quoted (lit cls) ++ lit ">" ++ content ++ lit "</text>".

(** [buildTextSvg(trackInfo, maxWidth)]; [maxWidth] is not used by the
    body. *)
Definition buildTextSvg (t : TrackInfo) (maxWidth : Z) : jstr :=
  line 4 (svgOpen 280 100)
  ++ textStyle 6
  ++ line 6 (textElem (lit "0") 27 "title" (titleText t))
  ++ line 6 (textElem (lit "0") 55 "artist" (artistText t))
  ++ line 4 svgClose
  ++ line 4 [].

(** ** renderer.js: progress bar *)

(** Node buffers, by how they are made. *)
Inductive buffer :=
| FromText (s : jstr)      (* Buffer.from(s) *)
| FromBase64 (s : jstr)    (* Buffer.from(s, 'base64') *)
| Bytes (b : list N).      (* a buffer the raster library returned *)

Definition barHeight : Z := 5.
Definition radius : Z := 1.
Definition bgColor : jstr := lit "#404040".
Definition fillColor : jstr := lit "#1DB954".

Definition rectElem (x y w h rx : Z) (fill : jstr) : jstr :=
  lit "<rect x=" ++ quoted (show x) ++ lit " y=" ++ quoted (show y)
  ++ lit " width=" ++ quoted (show w) ++ lit " height=" ++ quoted (show h)
  ++ lit " rx=" ++ quoted (show rx) ++ lit " fill=" ++ quoted fill
  ++ lit "/>".

(** [Math.round((currentTime / duration) * barWidth)]: the quotient is
    rounded to a double, then its product with the bar width is, and
    [Math.round] is applied to that double. An undefined [currentTime] makes
    the quotient NaN, which [None] stands for. *)
Definition progressWidth (duration : Q) (currentTime : option Q) (barWidth : Z)
  : option Z :=
  match currentTime with
  | None => None
  | Some p =>
      Some (round (binary64 (binary64 (p / duration) * inject_Z barWidth)))
  end.

(** The background track and the interpolated fill
    ([progressWidth > 0 ? `<rect .../>` : '']). *)
Definition trackRect (barX barY barWidth : Z) : jstr :=
  rectElem barX barY barWidth barHeight radius bgColor.

Definition fillRect (barX barY : Z) (pw : option Z) : jstr :=
  match pw with
  | Some w => if w >? 0 then rectElem barX barY w barHeight radius fillColor
              else []
  | None => []
  end.

(** The markup of the branch [!duration || duration === 0]. *)
Definition bareBarSvg (barWidth barX barY : Z) : jstr :=
  line 8 (svgOpen 400 100)
  ++ line 10 (trackRect barX barY barWidth)
  ++ line 8 svgClose
  ++ line 6 [].

(** The markup of the other branch. *)
Definition filledBarSvg (d : Q) (currentTime : option Q) (barWidth barX barY : Z)
  : jstr :=
  line 6 (svgOpen 400 100)
  ++ line 8 (trackRect barX barY barWidth)
  ++ line 8 (fillRect barX barY (progressWidth d currentTime barWidth))
  ++ line 6 svgClose
  ++ line 4 [].

Definition progressSvg (duration currentTime : option Q) (barWidth barX barY : Z)
  : jstr :=
  match duration with
  | None => bareBarSvg barWidth barX barY
  | Some d =>
      if Qeq_bool d 0 then bareBarSvg barWidth barX barY
      else filledBarSvg d currentTime barWidth barX barY
  end.

(** [createProgressBar(duration, currentTime, barWidth, barX, barY)] *)
Definition createProgressBar (duration currentTime : option Q)
  (barWidth barX barY : Z) : buffer :=
  FromText (progressSvg duration currentTime barWidth barX barY).

(** ** renderer.js: artwork bytes *)

Inductive exn :=
| TypeError        (* raised by the JavaScript runtime *)
| RasterError.     (* raised by the raster library *)

Inductive outcome (A : Type) :=
| Ok (a : A)
| Throw (e : exn).
Arguments Ok {A} a.
Arguments Throw {A} e.

Definition bind {A B} (m : outcome A) (k : A -> outcome B) : outcome B :=
  match m with
  | Ok a => k a
  | Throw e => Throw e
  end.

Notation "x <- m ;; k" := (bind m (fun x => k))
  (at level 61, m at next level, right associativity).

(** [try { m } catch (error) { h }] *)
Definition tryCatch {A} (m : outcome A) (h : outcome A) : outcome A :=
  match m with
  | Ok a => Ok a
  | Throw _ => h
  end.

(** [extractBase64FromDataUrl(dataUrl)]: [None] is [null]. A data URL with
    no comma makes [split(',')[1]] undefined, on which [Buffer.from]
    throws. *)
Definition extractBase64FromDataUrl (dataUrl : option jstr)
  : outcome (option buffer) :=
  match dataUrl with
  | None => Ok None
  | Some [] => Ok None
  | Some s =>
      if startsWith (lit "data:") s then
        match nth_error (split comma s) 1 with
        | Some base64 => Ok (Some (FromBase64 base64))
        | None => Throw TypeError
        end
      else Ok (Some (FromBase64 s))
  end.

(** ** The raster library *)

Record layer := { input : buffer; left_ : Z; top_ : Z }.

Record region := { rleft : Z; rtop : Z; rwidth : Z; rheight : Z }.

(** The calls the renderer makes on sharp and on the buffers it returns.
    - [resizeCover b w h]:
      [sharp(b).resize(w, h, {fit:'cover', position:'center'}).png().toBuffer()]
    - [composite w h ls]: a [w] x [h] opaque black canvas,
      [.composite(ls).png().toBuffer()]
    - [extract b r]: [sharp(b).extract(r).png().toBuffer()]
    - [toPng b]: [sharp(b).png().toBuffer()]
    - [toBase64 b]: [b.toString('base64')] *)
Record Raster := {
  resizeCover : buffer -> Z -> Z -> outcome buffer;
  composite : Z -> Z -> list layer -> outcome buffer;
  extract : buffer -> region -> outcome buffer;
  toPng : buffer -> outcome buffer;
  toBase64 : buffer -> jstr
}.

(** ** renderer.js: the renderer *)

Definition fullWidth : Z := 400.
Definition dialWidth : Z := 200.
Definition lcdHeight : Z := 100.
Definition artworkSize : Z := 100.
Definition padding : Z := 8.

Fixpoint jstr_eqb (a b : jstr) : bool :=
  match a, b with
  | [], [] => true
  | x :: a', y :: b' => N.eqb x y && jstr_eqb a' b'
  | _, _ => false
  end.

(** A [position] argument: [None] when the caller omits it. *)
Definition positionArg (position : option jstr) : jstr :=
  match position with
  | None => lit "left"
  | Some p => p
  end.

(** [position === 'left'] *)
Definition isLeft (position : jstr) : bool := jstr_eqb position (lit "left").

(** [position === 'left' ? 0 : this.dialWidth] *)
Definition cropX (position : jstr) : Z :=
  if isLeft position then 0 else dialWidth.

Definition cropRegion (position : jstr) : region :=
  {| rleft := cropX position; rtop := 0;
     rwidth := dialWidth; rheight := lcdHeight |}.

Definition dataUrlPrefix : jstr := lit "data:image/png;base64,".

Definition dataUrl (payload : jstr) : jstr := dataUrlPrefix ++ payload.

Definition textX : Z := 100 + padding.
Definition textAreaWidth : Z := fullWidth - textX - padding.
Definition barX : Z := textX.
Definition barY : Z := 75.
Definition barWidth : Z := textAreaWidth - padding.

(** The glyph of the left fallback, as the source file holds it. *)
Definition fallbackGlyph : jstr := [226; 8482; 170]%N.

Definition fallbackSvg (position : jstr) : jstr :=
  let message := if isLeft position then fallbackGlyph else lit "No Track" in
  line 4 (svgOpen 200 100)
  ++ line 6 (lit "<rect width=" ++ quoted (lit "200") ++ lit " height="
             ++ quoted (lit "100") ++ lit " fill=" ++ quoted (lit "black")
             ++ lit "/>")
  ++ line 6 (lit "<text x=" ++ quoted (lit "100") ++ lit " y="
             ++ quoted (lit "55") ++ lit " font-family=" ++ quoted (lit "Arial")
             ++ lit " font-size="
             ++ quoted (if isLeft position then lit "40" else lit "14")
             ++ lit " fill=" ++ quoted (lit "#666666") ++ lit " text-anchor="
             ++ quoted (lit "middle") ++ lit ">")
  ++ line 8 message
  ++ line 6 (lit "</text>")
  ++ line 4 svgClose
  ++ line 4 [].

Definition darkArtSvg : jstr :=
  line 6 (svgOpen 100 100)
  ++ line 8 (lit "<rect width=" ++ quoted (lit "100") ++ lit " height="
             ++ quoted (lit "100") ++ lit " fill=" ++ quoted (lit "#1a1a1a")
             ++ lit "/>")
  ++ line 8 (lit "<!-- Pause icon overlay -->")
  ++ line 8 (lit "<rect x=" ++ quoted (lit "35") ++ lit " y="
             ++ quoted (lit "35") ++ lit " width=" ++ quoted (lit "10")
             ++ lit " height=" ++ quoted (lit "30") ++ lit " fill="
             ++ quoted (lit "white") ++ lit " opacity=" ++ quoted (lit "0.6")
             ++ lit "/>")
  ++ line 8 (lit "<rect x=" ++ quoted (lit "55") ++ lit " y="
             ++ quoted (lit "35") ++ lit " width=" ++ quoted (lit "10")
             ++ lit " height=" ++ quoted (lit "30") ++ lit " fill="
             ++ quoted (lit "white") ++ lit " opacity=" ++ quoted (lit "0.6")
             ++ lit "/>")
  ++ line 6 svgClose
  ++ line 6 [].

Definition blankTextSvg : jstr :=
  line 6 (svgOpen 400 100)
  ++ textStyle 8
  ++ line 8 (textElem (show textX) 27 "title" (lit "No track playing"))
  ++ line 8 (textElem (show textX) 55 "artist" (lit "Start playing music"))
  ++ line 8 (lit "<!-- Empty progress bar background -->")
  ++ line 8 (rectElem barX 75 barWidth 5 1 (lit "#404040"))
  ++ line 6 svgClose
  ++ line 6 [].

Definition blackSvg : jstr :=
  line 6 (svgOpen 200 100)
  ++ line 8 (lit "<rect width=" ++ quoted (lit "200") ++ lit " height="
             ++ quoted (lit "100") ++ lit " fill=" ++ quoted (lit "black")
             ++ lit "/>")
  ++ line 6 svgClose
  ++ line 6 [].

Section Renderer.

Variable lib : Raster.

(** The album-art block of [render], with its own [try]/[catch]: the layers
    it pushes (one, or none). *)
Definition artLayers (t : TrackInfo) : list layer :=
  match thumbnail t with
  | None => []
  | Some [] => []
  | Some s =>
      match
        (artBuffer <- extractBase64FromDataUrl (Some s) ;;
         match artBuffer with
         | Some b =>
             albumArtBuffer <- resizeCover lib b artworkSize artworkSize ;;
             Ok [{| input := albumArtBuffer; left_ := 0; top_ := 0 |}]
         | None => Ok []
         end)
      with
      | Ok ls => ls
      | Throw _ => []
      end
  end.

Definition textLayer (t : TrackInfo) : layer :=
  {| input := FromText (buildTextSvg t textAreaWidth);
     left_ := textX; top_ := 0 |}.

Definition barLayer (t : TrackInfo) : layer :=
  {| input := createProgressBar (duration t) (position t) barWidth barX barY;
     left_ := 0; top_ := 0 |}.

(** The [composite] array of [render] when the full canvas is created. *)
Definition renderLayers (t : TrackInfo) : list layer :=
  artLayers t ++ [textLayer t; barLayer t].

(** Canvas, crop and encoding, shared by [render] and [createBlank]. *)
Definition cropToDataUrl (layers : list layer) (position : jstr)
  : outcome jstr :=
  fullCanvas <- composite lib fullWidth lcdHeight layers ;;
  croppedImage <- extract lib fullCanvas (cropRegion position) ;;
  Ok (dataUrl (toBase64 lib croppedImage)).

(** The body of the [try] of [render]; an absent [trackInfo] makes the
    first property access throw. *)
Definition renderBody (trackInfo : option TrackInfo) (position : jstr)
  : outcome jstr :=
  match trackInfo with
  | None => Throw TypeError
  | Some t => cropToDataUrl (renderLayers t) position
  end.

(** [createFallback(position = 'left')] *)
Definition createFallback (position : option jstr) : outcome jstr :=
  let position := positionArg position in
  result <- toPng lib (FromText (fallbackSvg position)) ;;
  Ok (dataUrl (toBase64 lib result)).

(** [render(trackInfo, position = 'left')] *)
Definition render (trackInfo : option TrackInfo) (position : option jstr)
  : outcome jstr :=
  let position := positionArg position in
  tryCatch (renderBody trackInfo position) (createFallback (Some position)).

Definition blankLayers : list layer :=
  [ {| input := FromText darkArtSvg; left_ := 0; top_ := 0 |};
    {| input := FromText blankTextSvg; left_ := 0; top_ := 0 |} ].

(** [createBlank(position = 'left')] *)
Definition createBlank (position : option jstr) : outcome jstr :=
  let position := positionArg position in
  tryCatch (cropToDataUrl blankLayers position)
    (result <- toPng lib (FromText blackSvg) ;;
     Ok (dataUrl (toBase64 lib result))).

End Renderer.

(** ** Definitions used to state the properties *)

(** The text between the tags holds no markup character of its own: every
    ampersand opens one of the five references [escapeXml] writes, and no
    angle bracket or quote occurs. *)
Definition entityTails : list jstr :=
  [lit "amp;"; lit "lt;"; lit "gt;"; lit "quot;"; lit "#39;"].

Fixpoint rawFree (s : jstr) : bool :=
  match s with
  | [] => true
  | c :: r =>
      (if N.eqb c amp then existsb (fun e => startsWith e r) entityTails
       else negb (existsb (N.eqb c) [lt; gt; dquote; squote]))
      && rawFree r
  end.

(** What [escapeXml] writes for one character. *)
Definition escapeChar (c : cu) : jstr :=
  if N.eqb c amp then lit "&amp;"
  else if N.eqb c lt then lit "&lt;"
  else if N.eqb c gt then lit "&gt;"
  else if N.eqb c dquote then lit "&quot;"
  else if N.eqb c squote then lit "&#39;"
  else [c].

(** The five replacements of [escapeXml], without its test for the empty
    string. *)
Definition replaceFive (s : jstr) : jstr :=
  replaceAll squote (lit "&#39;")
    (replaceAll dquote (lit "&quot;")
       (replaceAll gt (lit "&gt;")
          (replaceAll lt (lit "&lt;")
             (replaceAll amp (lit "&amp;") s)))).

(** [s] ends with [suffix]. *)
Definition endsWith (suffix s : jstr) : Prop := exists pre, s = pre ++ suffix.

(** Number of occurrences of a character. *)
Definition occurrences (c : cu) (s : jstr) : nat :=
  List.length (filter (N.eqb c) s).






(** "The portion after the first comma", as the specification words it;
    [None] when there is no comma. *)
Fixpoint specAfterFirstComma (s : jstr) : option jstr :=
  match s with
  | [] => None
  | x :: r => if N.eqb x comma then Some r else specAfterFirstComma r
  end.

(** The characters before the first comma (all of them when there is
    none). *)
Fixpoint untilComma (s : jstr) : jstr :=
  match s with
  | [] => []
  | x :: r => if N.eqb x comma then [] else x :: untilComma r
  end.

(** A track with another thumbnail. *)
Definition withThumbnail (t : TrackInfo) (th : option jstr) : TrackInfo :=
  {| trackName := trackName t; artist := artist t; album := album t;
     thumbnail := th; duration := duration t; position := position t |}.

(** The raster library fails to decode the artwork [s]: either the payload
    cannot be extracted or the resize throws. *)
Definition decodeFails (lib : Raster) (s : jstr) : Prop :=
  match extractBase64FromDataUrl (Some s) with
  | Throw _ => True
  | Ok None => False
  | Ok (Some b) => exists e, resizeCover lib b artworkSize artworkSize = Throw e
  end.


(** Two instances of the raster library, to evaluate the renderer on: one
    on which every call succeeds (an image is the list of numbers that
    identifies how it was made), one on which every call throws. *)
Definition bufferTag (b : buffer) : list N :=
  match b with
  | FromText s => 1%N :: s
  | FromBase64 s => 2%N :: s
  | Bytes l => 3%N :: l
  end.

Definition recordingRaster : Raster :=
  {| resizeCover := fun b w h => Ok (Bytes (10%N :: Z.to_N w :: Z.to_N h :: bufferTag b));
     composite := fun w h ls =>
       Ok (Bytes (11%N :: Z.to_N w :: Z.to_N h :: N.of_nat (List.length ls)
                  :: flat_map (fun l => bufferTag (input l)) ls));
     extract := fun b r =>
       Ok (Bytes (12%N :: Z.to_N (rleft r) :: Z.to_N (rtop r)
                  :: Z.to_N (rwidth r) :: Z.to_N (rheight r) :: bufferTag b));
     toPng := fun b => Ok (Bytes (13%N :: bufferTag b));
     toBase64 := bufferTag |}.

Definition failingRaster : Raster :=
  {| resizeCover := fun _ _ _ => Throw RasterError;
     composite := fun _ _ _ => Throw RasterError;
     extract := fun _ _ => Throw RasterError;
     toPng := fun _ => Throw RasterError;
     toBase64 := fun _ => [] |}.

(** A raster library that composes and encodes but cannot decode any
    artwork. *)
Definition undecodingRaster : Raster :=
  {| resizeCover := fun _ _ _ => Throw RasterError;
     composite := composite recordingRaster;
     extract := extract recordingRaster;
     toPng := toPng recordingRaster;
     toBase64 := toBase64 recordingRaster |}.

(** The track of the repository's own test (test-renderer.js). *)
Definition midnightCity : TrackInfo :=
  {| trackName := Some (lit "Midnight City");
     artist := ArtistString (lit "M83");
     album := Some (lit "Hurry Up, We're Dreaming");
     thumbnail := None;
     duration := Some 244%Q;
     position := Some 122%Q |}.

(** ** Further definitions used to state properties of the renderer *)

(** A character [escapeXml] rewrites. *)
Definition isSpecial (c : cu) : bool :=
  existsb (N.eqb c) [amp; lt; gt; dquote; squote].

(** The constant parts of the text markup around the two texts. *)
Definition textMarkupHead : jstr :=
  line 4 (svgOpen 280 100) ++ textStyle 6
  ++ newline :: spaces 6
  ++ lit "<text x=" ++ quoted (lit "0") ++ lit " y=" ++ quoted (show 27)
  ++ lit " class=" ++ quoted (lit "title") ++ lit ">".

Definition textMarkupMiddle : jstr :=
  lit "</text>"
  ++ newline :: spaces 6
  ++ lit "<text x=" ++ quoted (lit "0") ++ lit " y=" ++ quoted (show 55)
  ++ lit " class=" ++ quoted (lit "artist") ++ lit ">".

Definition textMarkupTail : jstr :=
  lit "</text>" ++ line 4 svgClose ++ line 4 [].

(** Two raster libraries that differ at most in how they decode artwork. *)
Definition sameButDecoding (a b : Raster) : Prop :=
  (forall w h ls, composite a w h ls = composite b w h ls)
  /\ (forall buf r, extract a buf r = extract b buf r)
  /\ (forall buf, toPng a buf = toPng b buf)
  /\ (forall buf, toBase64 a buf = toBase64 b buf).

(** A data URL as a player hands it over: media type, ";base64," and the
    payload. *)
Definition dataUrlOf (mediaType payload : jstr) : jstr :=
  lit "data:" ++ mediaType ++ lit ";base64," ++ payload.

(** ** plugin.js

    The plugin's functions act on the plugin's variables and on the host:
    the log file, the actions of the device, the media session. A call on
    the host is recorded in the order it is made and may raise; which calls
    raise is decided by the host, from the calls made before. Handlers are
    taken one at a time, each run to its end; an action is identified with
    the object the device hands to the handlers, taken to be the same object
    for every event of that action. Of the two versions of the plugin the
    file holds, this is the later one, which drives the LCD. *)

(** The event the media session delivers: the track, and whether it is
    playing. *)
Record NowPlayingEvent := { track : TrackInfo; isPlaying : bool }.

Inductive call :=
| Log                                      (* log(...) *)
| SetTitle (action : N) (title : jstr)     (* action.setTitle(title) *)
| SetImage (action : N) (image : jstr)     (* action.setImage(image) *)
| SetFeedback (action : N) (image : jstr)  (* action.setFeedback({image}) *)
| NewNowPlaying                            (* new NowPlaying(callback) *)
| Subscribe                                (* nowPlayingInstance.subscribe() *)
| Unsubscribe                              (* .unsubscribe() *)
| PlayPause                                (* .playPause() *)
| Seek (seconds : Z).                      (* .seek(seconds) *)

(** Whether a call raises, given the calls made before it. *)
Definition host := list call -> call -> bool.

(** The plugin's variables, the [_position] property of the actions, and
    the calls made so far. A JavaScript [Set] of actions is the list of
    their identifiers in insertion order. *)
Record World := {
  nowPlayingInstance : bool;
  currentTrackInfo : option NowPlayingEvent;
  keypadContexts : list N;
  lcdContexts : list N;
  positionOf : N -> option jstr;
  history : list call
}.

Inductive thrown :=
| RendererThrew (e : exn)
| HostThrew (c : call).

Inductive result (A : Type) :=
| Returned (a : A) (w : World)
| Raised (x : thrown) (w : World).
Arguments Returned {A} a w.
Arguments Raised {A} x w.

Definition worldOf {A} (r : result A) : World :=
  match r with
  | Returned _ w => w
  | Raised _ w => w
  end.

Definition Act (A : Type) := World -> result A.

Definition ret {A} (a : A) : Act A := fun w => Returned a w.

Definition andThen {A B} (m : Act A) (k : A -> Act B) : Act B :=
  fun w =>
    match m w with
    | Returned a w' => k a w'
    | Raised x w' => Raised x w'
    end.

(** [try { m } catch (error) { handler }] *)
Definition attempt {A} (m handler : Act A) : Act A :=
  fun w =>
    match m w with
    | Returned a w' => Returned a w'
    | Raised _ w' => handler w'
    end.

Declare Scope act_scope.
Delimit Scope act_scope with act.
Notation "x <- m ;; k" := (andThen m (fun x => k))
  (at level 61, m at next level, right associativity) : act_scope.
Notation "m ;; k" := (andThen m (fun _ => k))
  (at level 61, right associativity) : act_scope.

Definition withHistory (w : World) (h : list call) : World :=
  {| nowPlayingInstance := nowPlayingInstance w;
     currentTrackInfo := currentTrackInfo w;
     keypadContexts := keypadContexts w;
     lcdContexts := lcdContexts w;
     positionOf := positionOf w;
     history := h |}.

Definition setInstance (b : bool) : Act unit :=
  fun w =>
    Returned tt
      {| nowPlayingInstance := b;
         currentTrackInfo := currentTrackInfo w;
         keypadContexts := keypadContexts w;
         lcdContexts := lcdContexts w;
         positionOf := positionOf w;
         history := history w |}.

Definition setCurrentTrackInfo (e : option NowPlayingEvent) : Act unit :=
  fun w =>
    Returned tt
      {| nowPlayingInstance := nowPlayingInstance w;
         currentTrackInfo := e;
         keypadContexts := keypadContexts w;
         lcdContexts := lcdContexts w;
         positionOf := positionOf w;
         history := history w |}.

Definition setKeypadContexts (f : list N -> list N) : Act unit :=
  fun w =>
    Returned tt
      {| nowPlayingInstance := nowPlayingInstance w;
         currentTrackInfo := currentTrackInfo w;
         keypadContexts := f (keypadContexts w);
         lcdContexts := lcdContexts w;
         positionOf := positionOf w;
         history := history w |}.

Definition setLcdContexts (f : list N -> list N) : Act unit :=
  fun w =>
    Returned tt
      {| nowPlayingInstance := nowPlayingInstance w;
         currentTrackInfo := currentTrackInfo w;
         keypadContexts := keypadContexts w;
         lcdContexts := f (lcdContexts w);
         positionOf := positionOf w;
         history := history w |}.

(** [action._position = position] *)
Definition setPosition (action : N) (position : jstr) : Act unit :=
  fun w =>
    Returned tt
      {| nowPlayingInstance := nowPlayingInstance w;
         currentTrackInfo := currentTrackInfo w;
         keypadContexts := keypadContexts w;
         lcdContexts := lcdContexts w;
         positionOf := fun a => if N.eqb a action then Some position
                                else positionOf w a;
         history := history w |}.

(** [set.add(a)], [set.delete(a)], [set.size === 0] *)
Definition setAdd (a : N) (s : list N) : list N :=
  if existsb (N.eqb a) s then s else s ++ [a].

Definition setDelete (a : N) (s : list N) : list N :=
  filter (fun x => negb (N.eqb x a)) s.

Definition isEmpty (s : list N) : bool :=
  match s with
  | [] => true
  | _ :: _ => false
  end.

Definition defaultIcon : jstr := lit "assets/action".

(** The artists and the title of a key:
    [Array.isArray(artist) ? artist.join(', ') : (artist || 'Unknown')] and
    [`${trackName || 'Unknown'}\n${artists}`]. *)
Definition keypadArtists (t : TrackInfo) : jstr :=
  match artist t with
  | ArtistArray a => join (lit ", ") a
  | ArtistString s => orDefault (Some s) (lit "Unknown")
  | ArtistAbsent => lit "Unknown"
  end.

Definition keypadTitle (t : TrackInfo) : jstr :=
  orDefault (trackName t) (lit "Unknown") ++ newline :: keypadArtists t.

(** A string that is present and not empty. *)
Definition truthy (s : option jstr) : bool :=
  match s with
  | Some (_ :: _) => true
  | _ => false
  end.

(** [!currentTrackInfo || !currentTrackInfo.isPlaying] *)
Definition playing (cur : option NowPlayingEvent) : option NowPlayingEvent :=
  match cur with
  | Some e => if isPlaying e then Some e else None
  | None => None
  end.


Section Plugin.

Variable lib : Raster.
Variable env : host.

Local Open Scope act_scope.

(** A call on the host. *)
Definition perform (c : call) : Act unit :=
  fun w =>
    let w' := withHistory w (history w ++ [c]) in
    if env (history w) c then Raised (HostThrew c) w' else Returned tt w'.

(** A call on the renderer. *)
Definition fromRenderer {A} (o : outcome A) : Act A :=
  fun w =>
    match o with
    | Ok a => Returned a w
    | Throw e => Raised (RendererThrew e) w
    end.

(** [for (const action of set) { body }] *)
Fixpoint forEach (s : list N) (body : N -> Act unit) : Act unit :=
  match s with
  | [] => ret tt
  | a :: rest => body a ;; forEach rest body
  end.

(** [updateKeypadAction(action)] *)
Definition updateKeypadAction (action : N) : Act unit :=
  fun w =>
    match playing (currentTrackInfo w) with
    | None =>
        attempt (perform (SetTitle action fallbackGlyph) ;;
                 perform (SetImage action defaultIcon))
                (perform Log) w
    | Some e =>
        let t := track e in
        (perform Log ;;
         (if truthy (thumbnail t) then perform Log else ret tt) ;;
         attempt (perform (SetTitle action (keypadTitle t))) (perform Log) ;;
         match thumbnail t with
         | Some (c :: s) =>
             attempt (perform Log ;;
                      perform (SetImage action (c :: s)) ;;
                      perform Log)
                     (perform Log ;;
                      perform (SetImage action defaultIcon))
         | _ =>
             perform Log ;;
             attempt (perform (SetImage action defaultIcon)) (perform Log)
         end) w
    end.

(** [updateLCDAction(action, position = 'left')] *)
Definition updateLCDAction (action : N) (position : option jstr) : Act unit :=
  fun w =>
    let position := positionArg position in
    match playing (currentTrackInfo w) with
    | None =>
        attempt (blankImage <- fromRenderer (createBlank lib (Some position)) ;;
                 perform (SetFeedback action blankImage))
                (perform Log) w
    | Some e =>
        (perform Log ;;
         attempt
           (renderedImage <-
              fromRenderer (render lib (Some (track e)) (Some position)) ;;
            perform (SetFeedback action renderedImage) ;;
            perform Log)
           (perform Log ;;
            attempt
              (fallbackImage <-
                 fromRenderer (createFallback lib (Some position)) ;;
               perform (SetFeedback action fallbackImage))
              (perform Log))) w
    end.

(** [action._position || 'left'] *)
Definition storedPosition (action : N) (w : World) : jstr :=
  orDefault (positionOf w action) (lit "left").

(** [updateAllKeypads()] *)
Definition updateAllKeypads : Act unit :=
  fun w =>
    (perform Log ;;
     forEach (keypadContexts w)
       (fun action => attempt (updateKeypadAction action) (perform Log))) w.

(** [updateAllLCDs()] *)
Definition updateAllLCDs : Act unit :=
  fun w =>
    (perform Log ;;
     forEach (lcdContexts w)
       (fun action =>
          attempt (fun w' => updateLCDAction action
                               (Some (storedPosition action w')) w')
                  (perform Log))) w.

(** [updateAllActions()] *)
Definition updateAllActions : Act unit :=
  fun w =>
    (perform Log ;; perform Log ;; perform Log ;;
     forEach (keypadContexts w)
       (fun action =>
          perform Log ;;
          attempt (updateKeypadAction action ;; perform Log) (perform Log)) ;;
     forEach (lcdContexts w)
       (fun action =>
          perform Log ;;
          attempt ((fun w' => updateLCDAction action
                                (Some (storedPosition action w')) w') ;;
                   perform Log)
                  (perform Log)) ;;
     perform Log) w.

(** [initializeNowPlaying()] *)
Definition initializeNowPlaying : Act unit :=
  fun w =>
    if nowPlayingInstance w then Returned tt w
    else
      attempt (perform NewNowPlaying ;;
               setInstance true ;;
               perform Subscribe ;;
               perform Log)
              (perform Log) w.

(** The callback given to [new NowPlaying]: the [updateAllActions] it
    starts is followed to its end. *)
Definition onNowPlayingEvent (event : NowPlayingEvent) : Act unit :=
  perform Log ;; perform Log ;; perform Log ;; perform Log ;; perform Log ;;
  perform Log ;; perform Log ;;
  (if truthy (thumbnail (track event)) then perform Log ;; perform Log
   else ret tt) ;;
  perform Log ;; perform Log ;;
  setCurrentTrackInfo (Some event) ;;
  attempt updateAllActions (perform Log).

(** The clean-up shared by both [onWillDisappear] handlers. *)
Definition unsubscribeIfUnused : Act unit :=
  fun w =>
    if isEmpty (keypadContexts w) && isEmpty (lcdContexts w)
       && nowPlayingInstance w
    then attempt (perform Unsubscribe ;; setInstance false ;; perform Log)
                 (perform Log) w
    else Returned tt w.

(** The handlers of the keypad action. *)
Definition keypadOnWillAppear (action : N) : Act unit :=
  perform Log ;;
  setKeypadContexts (setAdd action) ;;
  initializeNowPlaying ;;
  updateKeypadAction action.

Definition keypadOnWillDisappear (action : N) : Act unit :=
  perform Log ;;
  setKeypadContexts (setDelete action) ;;
  unsubscribeIfUnused.


(** The handlers of the LCD action; [settingsPosition] is
    [ev.payload.settings.position], when there is one. *)
Definition lcdOnWillAppear (action : N) (settingsPosition : option jstr)
  : Act unit :=
  perform Log ;;
  let position := orDefault settingsPosition (lit "left") in
  perform Log ;;
  setPosition action position ;;
  setLcdContexts (setAdd action) ;;
  initializeNowPlaying ;;
  updateLCDAction action (Some position).

Definition lcdOnWillDisappear (action : N) : Act unit :=
  perform Log ;;
  setLcdContexts (setDelete action) ;;
  unsubscribeIfUnused.

Definition lcdOnDidReceiveSettings (action : N)
  (settingsPosition : option jstr) : Act unit :=
  let position := orDefault settingsPosition (lit "left") in
  perform Log ;;
  setPosition action position ;;
  updateLCDAction action (Some position).


End Plugin.

(** Statements about the plugin. *)

(** The calls made from [w] to [w']. *)
Definition callsSince (w w' : World) : list call :=
  skipn (List.length (history w)) (history w').

Definition isFeedback (c : call) : bool :=
  match c with
  | SetFeedback _ _ => true
  | _ => false
  end.

Definition isSessionSetup (c : call) : bool :=
  match c with
  | NewNowPlaying | Subscribe => true
  | _ => false
  end.

(** A host on which logging never raises. *)
Definition logsQuietly (env : host) : Prop := forall h, env h Log = false.

(** Hosts to evaluate the plugin on: one on which nothing raises, one on
    which every call on an action raises, one on which subscribing
    raises. *)
Definition quietHost : host := fun _ _ => false.

Definition deafDeviceHost : host :=
  fun _ c =>
    match c with
    | SetTitle _ _ | SetImage _ _ | SetFeedback _ _ => true
    | _ => false
    end.

Definition noSubscriptionHost : host :=
  fun _ c =>
    match c with
    | Subscribe => true
    | _ => false
    end.

Definition freshWorld : World :=
  {| nowPlayingInstance := false;
     currentTrackInfo := None;
     keypadContexts := [];
     lcdContexts := [];
     positionOf := fun _ => None;
     history := [] |}.

Definition playingWorld (t : TrackInfo) : World :=
  {| nowPlayingInstance := true;
     currentTrackInfo := Some {| track := t; isPlaying := true |};
     keypadContexts := [1%N];
     lcdContexts := [2%N; 3%N];
     positionOf := fun a => if N.eqb a 3 then Some (lit "right") else None;
     history := [] |}.

(** [m] returns, from every state. *)
Definition alwaysReturns (m : Act unit) : Prop :=
  forall w, exists w', m w = Returned tt w'.

(** The state [w'] continues [w]: the calls of [w] and then [new]. *)
Definition continues (w w' : World) (new : list call) : Prop :=
  history w' = history w ++ new.

(** Between [w] and [w'] only calls satisfying [P] were made. *)
Definition onlyCalls (P : call -> Prop) (w w' : World) : Prop :=
  exists new, continues w w' new /\ Forall P new.

(** Between [w] and [w'] the call [c] was made. *)
Definition called (c : call) (w w' : World) : Prop :=
  exists new, continues w w' new /\ In c new.

(** The registered actions and their positions are the same. *)
Definition sameRegistrations (w w' : World) : Prop :=
  keypadContexts w' = keypadContexts w
  /\ lcdContexts w' = lcdContexts w
  /\ positionOf w' = positionOf w.

(** No condition on a call. *)
Definition anyCall (c : call) : Prop := True.

(** The track held is the same. *)
Definition sameTrack (w w' : World) : Prop :=
  currentTrackInfo w' = currentTrackInfo w.

(** A call on the device or on the log, not on the media session. *)
Definition isDisplayCall (c : call) : Prop :=
  match c with
  | Log | SetTitle _ _ | SetImage _ _ | SetFeedback _ _ => True
  | _ => False
  end.

(** ** Strings: auxiliary facts *)

Lemma jstr_eqb_eq (a b : jstr) : jstr_eqb a b = true <-> a = b.
Proof.
  revert b; induction a as [|x a IH]; intros [|y b]; simpl; split;
    try congruence; try reflexivity.
  - intros H. apply andb_true_iff in H as [Hx Hr].
    apply N.eqb_eq in Hx. apply IH in Hr. congruence.
  - intros H. injection H as -> ->. rewrite N.eqb_refl. simpl.
    now apply IH.
Qed.

Lemma isLeft_false (p : jstr) : p <> lit "left" -> isLeft p = false.
Proof.
  intros H. unfold isLeft. destruct (jstr_eqb p (lit "left")) eqn:E; auto.
  apply jstr_eqb_eq in E. contradiction.
Qed.

Lemma len_app (a b : jstr) : len (a ++ b) = len a + len b.
Proof. unfold len. rewrite length_app. lia. Qed.

Lemma len_nonneg (s : jstr) : 0 <= len s.
Proof. unfold len. lia. Qed.

Lemma len_substring0 (e : Z) (s : jstr) :
  0 <= e <= len s -> len (substring0 e s) = e.
Proof.
  unfold len, substring0. intros H.
  rewrite firstn_length_le by lia. lia.
Qed.

Lemma truncate_short (s : jstr) (B : Z) : len s <= B -> truncate s B = s.
Proof.
  intros H. unfold truncate.
  destruct (len s >? B) eqn:E; auto.
  apply Z.gtb_lt in E. lia.
Qed.

Lemma truncate_long (s : jstr) (B : Z) :
  B < len s -> truncate s B = substring0 (B - 3) s ++ lit "...".
Proof.
  intros H. unfold truncate.
  destruct (len s >? B) eqn:E; auto.
  rewrite Z.gtb_ltb in E. apply Z.ltb_ge in E. lia.
Qed.

(** ** Text layout *)

(** C5. Truncation law. For every string and every character budget [B] of
    at least 3 (the title budget 28 and the artist budget 32 are the fixed
    budgets [buildTextSvg] uses): a string no longer than [B] is emitted
    unchanged; a longer one is emitted as its first [B - 3] characters
    followed by "...", which has length exactly [B] and ends with "...";
    so the emitted length never exceeds [B]. *)
Theorem truncate_within_budget (s : jstr) (B : Z) (HB : 3 <= B) :
  (len s <= B -> truncate s B = s)
  /\ (B < len s ->
      truncate s B = firstn (Z.to_nat (B - 3)) s ++ lit "..."
      /\ len (truncate s B) = B
      /\ endsWith (lit "...") (truncate s B))
  /\ len (truncate s B) <= B.
Proof.
  assert (Hlong : B < len s ->
                  truncate s B = firstn (Z.to_nat (B - 3)) s ++ lit "..."
                  /\ len (truncate s B) = B).
  { intros H. rewrite (truncate_long s B H). split; [reflexivity|].
    rewrite len_app, len_substring0 by lia.
    change (len (lit "...")) with 3. lia. }
  split; [apply truncate_short|]. split.
  - intros H. destruct (Hlong H) as [E L]. repeat split; auto.
    exists (firstn (Z.to_nat (B - 3)) s). exact E.
  - destruct (Z_lt_le_dec B (len s)) as [H|H].
    + destruct (Hlong H) as [_ L]. lia.
    + rewrite truncate_short; auto.
Qed.

Lemma truncate_within_budget_witness :
  3 <= titleBudget
  /\ titleBudget < len (lit "The Rime of the Ancient Mariner (Live)")
  /\ truncate (lit "The Rime of the Ancient Mariner (Live)") titleBudget
     = lit "The Rime of the Ancient M..."
  /\ len (truncate (lit "The Rime of the Ancient Mariner (Live)") titleBudget)
     <= titleBudget.
Proof.
  assert (HB : 3 <= titleBudget) by (unfold titleBudget; lia).
  destruct (truncate_within_budget
              (lit "The Rime of the Ancient Mariner (Live)") titleBudget HB)
    as [_ [Hlong Hle]].
  assert (Hl : titleBudget < len (lit "The Rime of the Ancient Mariner (Live)"))
    by (vm_compute; reflexivity).
  destruct (Hlong Hl) as [E _].
  split; [exact HB|]. split; [exact Hl|]. split; [|exact Hle].
  rewrite E. vm_compute. reflexivity.
Defined.

Lemma replaceAll_app (c : cu) (by_ a b : jstr) :
  replaceAll c by_ (a ++ b) = replaceAll c by_ a ++ replaceAll c by_ b.
Proof. unfold replaceAll. apply flat_map_app. Qed.

Lemma replaceFive_app (a b : jstr) :
  replaceFive (a ++ b) = replaceFive a ++ replaceFive b.
Proof. unfold replaceFive. now rewrite !replaceAll_app. Qed.

Lemma replaceFive_one (c : cu) : replaceFive [c] = escapeChar c.
Proof.
  unfold escapeChar.
  destruct (N.eqb_spec c amp) as [->|Ha]; [reflexivity|].
  destruct (N.eqb_spec c lt) as [->|Hl]; [reflexivity|].
  destruct (N.eqb_spec c gt) as [->|Hg]; [reflexivity|].
  destruct (N.eqb_spec c dquote) as [->|Hd]; [reflexivity|].
  destruct (N.eqb_spec c squote) as [->|Hs]; [reflexivity|].
  unfold replaceFive, replaceAll. simpl.
  apply N.eqb_neq in Ha, Hl, Hg, Hd, Hs.
  rewrite Ha. simpl. rewrite Hl. simpl. rewrite Hg. simpl.
  rewrite Hd. simpl. rewrite Hs. reflexivity.
Qed.

(** The five successive replacements amount to one pass that rewrites each
    character on its own: no replacement text holds a character that a
    later replacement rewrites. *)
Lemma escapeXml_one_pass (s : jstr) : escapeXml s = flat_map escapeChar s.
Proof.
  transitivity (replaceFive s).
  - destruct s; reflexivity.
  - induction s as [|c s IH]; [reflexivity|].
    change (c :: s) with ([c] ++ s).
    rewrite replaceFive_app, replaceFive_one, IH. reflexivity.
Qed.

Lemma rawFree_escapeChar (c : cu) (r : jstr) :
  rawFree r = true -> rawFree (escapeChar c ++ r) = true.
Proof.
  intros Hr. unfold escapeChar.
  destruct (N.eqb_spec c amp) as [->|Ha]; [simpl; exact Hr|].
  destruct (N.eqb_spec c lt) as [->|Hl]; [simpl; exact Hr|].
  destruct (N.eqb_spec c gt) as [->|Hg]; [simpl; exact Hr|].
  destruct (N.eqb_spec c dquote) as [->|Hd]; [simpl; exact Hr|].
  destruct (N.eqb_spec c squote) as [->|Hs]; [simpl; exact Hr|].
  apply N.eqb_neq in Ha, Hl, Hg, Hd, Hs.
  simpl. rewrite Ha, Hl, Hg, Hd, Hs. simpl. exact Hr.
Qed.

Lemma rawFree_escapeXml (s : jstr) : rawFree (escapeXml s) = true.
Proof.
  rewrite escapeXml_one_pass.
  induction s as [|c s IH]; [reflexivity|].
  simpl. now apply rawFree_escapeChar.
Qed.

Lemma rawFree_cons (c : cu) (r : jstr) :
  rawFree (c :: r) =
  (if N.eqb c amp then existsb (fun e => startsWith e r) entityTails
   else negb (existsb (N.eqb c) [lt; gt; dquote; squote]))
  && rawFree r.
Proof. reflexivity. Qed.

Lemma rawFree_no_special (s : jstr) (c : cu) :
  rawFree s = true -> In c [lt; gt; dquote; squote] -> ~ In c s.
Proof.
  induction s as [|x s IH]; intros Hs Hc Hin; [inversion Hin|].
  rewrite rawFree_cons in Hs. apply andb_true_iff in Hs as [Hx Hr].
  destruct Hin as [->|Hin]; [|now apply IH].
  destruct (N.eqb_spec c amp) as [->|Ha].
  - simpl in Hc. unfold amp, lt, gt, dquote, squote in Hc.
    intuition discriminate.
  - apply negb_true_iff in Hx.
    assert (E : existsb (N.eqb c) [lt; gt; dquote; squote] = true).
    { apply existsb_exists. exists c. split; auto. apply N.eqb_refl. }
    congruence.
Qed.

(** C7. Escaping. For every track, the title and artist text embedded in
    the markup are exactly what [escapeXml] returns on the (truncated)
    title and artist, and that text has no raw markup character: it holds
    no "<", ">", double quote or apostrophe, and every "&" in it opens one
    of the references &amp; &lt; &gt; &quot; &#39;. *)
Theorem text_content_escaped (t : TrackInfo) :
  titleText t = escapeXml (truncate (titleOf t) titleBudget)
  /\ artistText t = escapeXml (truncate (artistOf t) artistBudget)
  /\ rawFree (titleText t) = true
  /\ rawFree (artistText t) = true
  /\ (forall c, In c [lt; gt; dquote; squote] ->
        ~ In c (titleText t) /\ ~ In c (artistText t))
  /\ buildTextSvg t textAreaWidth =
       line 4 (svgOpen 280 100) ++ textStyle 6
       ++ line 6 (textElem (lit "0") 27 "title" (titleText t))
       ++ line 6 (textElem (lit "0") 55 "artist" (artistText t))
       ++ line 4 svgClose ++ line 4 [].
Proof.
  assert (Ht : rawFree (titleText t) = true) by apply rawFree_escapeXml.
  assert (Ha : rawFree (artistText t) = true) by apply rawFree_escapeXml.
  repeat split; auto; now apply rawFree_no_special.
Qed.

Lemma text_content_escaped_witness :
  let t := {| trackName := Some (lit "Tom & Jerry <3>" ++ [dquote]);
              artist := ArtistArray [lit "AC/DC"; lit "Guns N' Roses"];
              album := None; thumbnail := None;
              duration := None; position := None |} in
  titleText t = lit "Tom &amp; Jerry &lt;3&gt;&quot;"
  /\ artistText t = lit "AC/DC, Guns N&#39; Roses"
  /\ rawFree (titleText t) = true
  /\ ~ In lt (titleText t).
Proof.
  cbv zeta.
  destruct (text_content_escaped
              {| trackName := Some (lit "Tom & Jerry <3>" ++ [dquote]);
                 artist := ArtistArray [lit "AC/DC"; lit "Guns N' Roses"];
                 album := None; thumbnail := None;
                 duration := None; position := None |})
    as [Ht [Ha [Rt [_ [Hn _]]]]].
  split; [rewrite Ht; vm_compute; reflexivity|].
  split; [rewrite Ha; vm_compute; reflexivity|].
  split; [exact Rt|].
  apply Hn. left. reflexivity.
Defined.

(** Defaults of the text layout. The artist text is: "Unknown Artist" when
    the artist is absent or is the empty string; the string itself when it
    is a non-empty string; the elements joined with ", " when it is a list,
    which for a list of one name is that name and for the empty list is the
    empty text. The title text is "Unknown Track" when the title is absent
    or empty, the title otherwise. *)
Theorem text_defaults (t : TrackInfo) :
  (artist t = ArtistAbsent -> artistOf t = lit "Unknown Artist")
  /\ (artist t = ArtistString [] -> artistOf t = lit "Unknown Artist")
  /\ (forall s, s <> [] -> artist t = ArtistString s -> artistOf t = s)
  /\ (forall a, artist t = ArtistArray a -> artistOf t = join (lit ", ") a)
  /\ (forall x y rest, join (lit ", ") (x :: y :: rest)
                       = x ++ lit ", " ++ join (lit ", ") (y :: rest))
  /\ (forall x, join (lit ", ") [x] = x)
  /\ (artist t = ArtistArray [] -> artistOf t = [] /\ artistText t = [])
  /\ (trackName t = None \/ trackName t = Some [] ->
      titleOf t = lit "Unknown Track")
  /\ (forall s, s <> [] -> trackName t = Some s -> titleOf t = s).
Proof.
  unfold artistText, artistOf, titleOf.
  split; [intros ->; reflexivity|].
  split; [intros ->; reflexivity|].
  split; [intros s Hs ->; destruct s; [contradiction|reflexivity]|].
  split; [intros a ->; reflexivity|].
  split; [intros; reflexivity|].
  split; [intros; reflexivity|].
  split; [intros ->; split; reflexivity|].
  split; [intros [-> | ->]; reflexivity|].
  intros s Hs ->; destruct s; [contradiction|reflexivity].
Qed.

Lemma text_defaults_witness :
  artistOf midnightCity = lit "M83"
  /\ titleOf midnightCity = lit "Midnight City".
Proof.
  destruct (text_defaults midnightCity)
    as [_ [_ [Hs [_ [_ [_ [_ [_ Ht]]]]]]]].
  split.
  - apply Hs; [discriminate | reflexivity].
  - apply Ht; [discriminate | reflexivity].
Defined.

(** C3 at the empty artist list. The string branch and the title default
    an empty value to "Unknown ..."; the list branch does not: for the
    empty list the joined text is empty and is written as it is, where the
    claim has "Unknown Artist". *)
Lemma empty_artist_list_not_unknown :
  let t := {| trackName := Some (lit "Intro"); artist := ArtistArray [];
              album := None; thumbnail := None;
              duration := None; position := None |} in
  artistOf t = [] /\ artistOf t <> lit "Unknown Artist"
  /\ artistText t = []
  /\ ~ (forall t' : TrackInfo,
          artist t' = ArtistArray [] \/ artist t' = ArtistAbsent ->
          artistOf t' = lit "Unknown Artist").
Proof.
  cbv zeta. repeat split; try discriminate.
  intros H.
  specialize (H {| trackName := Some (lit "Intro"); artist := ArtistArray [];
                   album := None; thumbnail := None;
                   duration := None; position := None |}
                (or_introl eq_refl)).
  discriminate H.
Qed.

(** ** Numbers: auxiliary facts *)

Lemma pow2_pos (k : Z) : (0 < pow2 k)%Q.
Proof. apply Qpower_0_lt. reflexivity. Qed.

Lemma pow2_add (a b : Z) : pow2 (a + b) == pow2 a * pow2 b.
Proof. apply Qpower_plus. discriminate. Qed.

Lemma pow2_le (a b : Z) : a <= b -> (pow2 a <= pow2 b)%Q.
Proof. intros H. apply Qpower_le_compat_l; [exact H | discriminate]. Qed.

Lemma pow2_lt (a b : Z) : a < b -> (pow2 a < pow2 b)%Q.
Proof. intros H. apply Qpower_lt_compat_l; [exact H | reflexivity]. Qed.

Lemma pow2_lt_inv (a b : Z) : (pow2 a < pow2 b)%Q -> a < b.
Proof. intros H. apply (Qpower_lt_compat_l_inv 2); [exact H | reflexivity]. Qed.

Lemma pow2_Z (k : Z) : 0 <= k -> pow2 k == inject_Z (2 ^ k).
Proof. intros H. unfold pow2. now rewrite (Zpower_Qpower 2 k H). Qed.

Lemma pow2_multiple (j k : Z) :
  k <= j -> pow2 j == inject_Z (2 ^ (j - k)) * pow2 k.
Proof.
  intros H. rewrite <- pow2_Z by lia. rewrite <- pow2_add.
  replace (j - k + k) with j by lia. reflexivity.
Qed.

Lemma nearestEven_cases (y : Q) :
  nearestEven y = Qfloor y \/ nearestEven y = Qfloor y + 1.
Proof.
  unfold nearestEven.
  destruct (y - inject_Z (Qfloor y) ?= 1 # 2)%Q; auto.
  destruct (Z.even (Qfloor y)); auto.
Qed.

Lemma nearestEven_proper (y1 y2 : Q) :
  y1 == y2 -> nearestEven y1 = nearestEven y2.
Proof.
  intros H. unfold nearestEven. rewrite (Qfloor_comp _ _ H).
  assert (C : (y1 - inject_Z (Qfloor y2) ?= 1 # 2)%Q
              = (y2 - inject_Z (Qfloor y2) ?= 1 # 2)%Q).
  { apply Qcompare_comp; [now rewrite H | reflexivity]. }
  now rewrite C.
Qed.

Lemma nearestEven_int (z : Z) : nearestEven (inject_Z z) = z.
Proof.
  unfold nearestEven. rewrite Qfloor_Z.
  assert (C : (inject_Z z - inject_Z z ?= 1 # 2)%Q = Lt).
  { apply Qlt_alt.
    assert (E : inject_Z z - inject_Z z == 0) by ring.
    rewrite E. reflexivity. }
  now rewrite C.
Qed.

Lemma nearestEven_mono (y1 y2 : Q) :
  (y1 <= y2)%Q -> nearestEven y1 <= nearestEven y2.
Proof.
  intros H. pose proof (Qfloor_resp_le _ _ H) as F.
  destruct (Z.eq_dec (Qfloor y1) (Qfloor y2)) as [E|N].
  - unfold nearestEven. rewrite <- E.
    generalize (Z.even (Qfloor y1)). intros ev.
    generalize (Qfloor y1) (inject_Z (Qfloor y1)). intros f q.
    destruct (Qcompare_spec (y1 - q) (1 # 2)) as [C1|C1|C1];
      destruct (Qcompare_spec (y2 - q) (1 # 2)) as [C2|C2|C2];
      try (destruct ev); try lia; exfalso; lra.
  - destruct (nearestEven_cases y1) as [-> | ->];
      destruct (nearestEven_cases y2) as [-> | ->]; lia.
Qed.

Lemma nearestEven_nonneg (y : Q) : (0 <= y)%Q -> 0 <= nearestEven y.
Proof.
  intros H. rewrite <- (nearestEven_int 0). now apply nearestEven_mono.
Qed.

Lemma Qmake_times_den (n : Z) (d : positive) :
  (n # d) * inject_Z (Zpos d) == inject_Z n.
Proof. unfold Qeq, Qmult, inject_Z. simpl. lia. Qed.

Lemma pow2_log2_le (a : Z) :
  0 < a ->
  (pow2 (Z.log2 a) <= inject_Z a)%Q /\ (inject_Z a < pow2 (Z.log2 a + 1))%Q.
Proof.
  intros H. destruct (Z.log2_spec a H) as [L U].
  pose proof (Z.log2_nonneg a) as N.
  rewrite !pow2_Z by lia. split.
  - now rewrite <- Zle_Qle.
  - rewrite <- Zlt_Qlt. now replace (Z.log2 a + 1) with (Z.succ (Z.log2 a)) by lia.
Qed.

Lemma ilog2_spec (x : Q) :
  (0 < x)%Q -> (pow2 (ilog2 x) <= x)%Q /\ (x < pow2 (ilog2 x + 1))%Q.
Proof.
  intros H. destruct x as [n d].
  assert (Hn : 0 < n) by (unfold Qlt in H; simpl in H; lia).
  destruct (pow2_log2_le n Hn) as [A1 A2].
  destruct (pow2_log2_le (Zpos d) (Pos2Z.is_pos d)) as [B1 B2].
  pose proof (Qmake_times_den n d) as X.
  unfold ilog2. cbn [Qnum Qden].
  set (ln := Z.log2 n) in *. set (ld := Z.log2 (Zpos d)) in *.
  assert (U : (n # d < pow2 (ln - ld + 1))%Q).
  { apply (Qmult_lt_r _ _ (pow2 ld)); [apply pow2_pos|].
    rewrite <- pow2_add. replace (ln - ld + 1 + ld) with (ln + 1) by lia.
    apply Qle_lt_trans with (inject_Z n); [|exact A2].
    rewrite <- X. apply Qmult_le_l; [exact H | exact B1]. }
  assert (Lw : (pow2 (ln - ld - 1) <= n # d)%Q).
  { apply (Qmult_le_r _ _ (pow2 (ld + 1))); [apply pow2_pos|].
    rewrite <- pow2_add. replace (ln - ld - 1 + (ld + 1)) with ln by lia.
    apply Qle_trans with (inject_Z n); [exact A1|].
    rewrite <- X. apply Qmult_le_l; [exact H | now apply Qlt_le_weak]. }
  destruct (Qle_bool (pow2 (ln - ld)) (n # d)) eqn:E.
  - apply Qle_bool_iff in E. split; [exact E | exact U].
  - split; [exact Lw|].
    replace (ln - ld - 1 + 1) with (ln - ld) by lia.
    apply Qnot_le_lt. intros C. apply Qle_bool_iff in C. congruence.
Qed.

Lemma ilog2_unique (x : Q) (a : Z) :
  (pow2 a <= x)%Q -> (x < pow2 (a + 1))%Q -> ilog2 x = a.
Proof.
  intros L U.
  assert (H : (0 < x)%Q) by (eapply Qlt_le_trans; [apply pow2_pos | exact L]).
  destruct (ilog2_spec x H) as [L' U'].
  assert (a < ilog2 x + 1).
  { apply pow2_lt_inv. eapply Qle_lt_trans; [exact L | exact U']. }
  assert (ilog2 x < a + 1).
  { apply pow2_lt_inv. eapply Qle_lt_trans; [exact L' | exact U]. }
  lia.
Qed.

Lemma ilog2_proper (x y : Q) : (0 < x)%Q -> x == y -> ilog2 x = ilog2 y.
Proof.
  intros H E. destruct (ilog2_spec x H) as [L U].
  symmetry. apply ilog2_unique; now rewrite <- E.
Qed.

Lemma ilog2_mono (x y : Q) : (0 < x)%Q -> (x <= y)%Q -> ilog2 x <= ilog2 y.
Proof.
  intros H Hxy.
  assert (Hy : (0 < y)%Q) by (eapply Qlt_le_trans; eassumption).
  destruct (ilog2_spec x H) as [L _]. destruct (ilog2_spec y Hy) as [_ U].
  assert (ilog2 x < ilog2 y + 1); [|lia].
  apply pow2_lt_inv. eapply Qle_lt_trans; [exact L|].
  eapply Qle_lt_trans; [exact Hxy | exact U].
Qed.

(** *** Rounding to a multiple of a power of two *)
Lemma grid_mono (k : Z) (y1 y2 : Q) :
  (y1 <= y2)%Q -> (grid k y1 <= grid k y2)%Q.
Proof.
  intros H. unfold grid. apply Qmult_le_compat_r.
  - rewrite <- Zle_Qle. apply nearestEven_mono.
    apply Qmult_le_compat_r; [exact H|].
    apply Qlt_le_weak, Qinv_lt_0_compat, pow2_pos.
  - apply Qlt_le_weak, pow2_pos.
Qed.

Lemma grid_fix (k m : Z) : grid k (inject_Z m * pow2 k) == inject_Z m * pow2 k.
Proof.
  unfold grid.
  assert (E : inject_Z m * pow2 k / pow2 k == inject_Z m).
  { field. intros C. pose proof (pow2_pos k) as P. rewrite C in P.
    discriminate P. }
  now rewrite (nearestEven_proper _ _ E), nearestEven_int.
Qed.

Lemma grid_pow2 (j k : Z) : k <= j -> grid k (pow2 j) == pow2 j.
Proof.
  intros H.
  assert (E : pow2 j == inject_Z (2 ^ (j - k)) * pow2 k)
    by now apply pow2_multiple.
  unfold grid at 1.
  assert (E' : pow2 j / pow2 k == inject_Z (2 ^ (j - k)) * pow2 k / pow2 k).
  { now rewrite <- E. }
  rewrite (nearestEven_proper _ _ E').
  fold (grid k (inject_Z (2 ^ (j - k)) * pow2 k)).
  now rewrite grid_fix, <- E.
Qed.

Lemma roundPositive_grid (x : Q) : roundPositive x = grid (ulpExponent x) x.
Proof. reflexivity. Qed.

Lemma roundPositive_proper (x y : Q) :
  (0 < x)%Q -> x == y -> roundPositive x == roundPositive y.
Proof.
  intros H E. unfold roundPositive, grid, ulpExponent.
  rewrite (ilog2_proper x y H E).
  assert (E' : x / pow2 (Z.max (ilog2 y - 52) (-1074))
               == y / pow2 (Z.max (ilog2 y - 52) (-1074))) by now rewrite E.
  now rewrite (nearestEven_proper _ _ E').
Qed.

Lemma roundPositive_nonneg (x : Q) : (0 < x)%Q -> (0 <= roundPositive x)%Q.
Proof.
  intros H. unfold roundPositive, grid. apply Qmult_le_0_compat.
  - change 0%Q with (inject_Z 0). rewrite <- Zle_Qle.
    apply nearestEven_nonneg. apply Qlt_le_weak.
    apply Qlt_shift_div_l; [apply pow2_pos|]. now rewrite Qmult_0_l.
  - apply Qlt_le_weak, pow2_pos.
Qed.

Lemma roundPositive_mono (x y : Q) :
  (0 < x)%Q -> (x <= y)%Q -> (roundPositive x <= roundPositive y)%Q.
Proof.
  intros H Hxy.
  assert (Hy : (0 < y)%Q) by (eapply Qlt_le_trans; eassumption).
  pose proof (ilog2_mono x y H Hxy) as M.
  rewrite !roundPositive_grid. unfold ulpExponent.
  destruct (Z.eq_dec (Z.max (ilog2 x - 52) (-1074))
                     (Z.max (ilog2 y - 52) (-1074))) as [E|N].
  - rewrite E. now apply grid_mono.
  - assert (K : Z.max (ilog2 y - 52) (-1074) = ilog2 y - 52) by lia.
    assert (Lt : ilog2 x + 1 <= ilog2 y) by lia.
    destruct (ilog2_spec x H) as [_ Ux]. destruct (ilog2_spec y Hy) as [Ly _].
    apply Qle_trans with (pow2 (ilog2 y)).
    + rewrite <- (grid_pow2 (ilog2 y) (Z.max (ilog2 x - 52) (-1074))) by lia.
      apply grid_mono. apply Qlt_le_weak.
      eapply Qlt_le_trans; [exact Ux | now apply pow2_le].
    + rewrite <- (grid_pow2 (ilog2 y) (Z.max (ilog2 y - 52) (-1074))) by lia.
      now apply grid_mono.
Qed.

Lemma roundPositive_int (z : Z) :
  0 < z < 2 ^ 53 -> roundPositive (inject_Z z) == inject_Z z.
Proof.
  intros [Hz Hb].
  assert (Hq : (0 < inject_Z z)%Q) by (change 0%Q with (inject_Z 0); now rewrite <- Zlt_Qlt).
  destruct (ilog2_spec _ Hq) as [L _].
  assert (E : ilog2 (inject_Z z) < 53).
  { apply pow2_lt_inv. eapply Qle_lt_trans; [exact L|].
    rewrite pow2_Z by lia. now rewrite <- Zlt_Qlt. }
  rewrite roundPositive_grid. unfold ulpExponent.
  set (k := Z.max (ilog2 (inject_Z z) - 52) (-1074)).
  assert (Hk : k <= 0) by lia.
  assert (M : inject_Z z == inject_Z (z * 2 ^ (- k)) * pow2 k).
  { rewrite inject_Z_mult, <- Qmult_assoc, <- pow2_Z by lia.
    rewrite <- pow2_add. replace (- k + k) with 0 by lia.
    change (pow2 0) with 1%Q. ring. }
  assert (G : grid k (inject_Z z) == grid k (inject_Z (z * 2 ^ (- k)) * pow2 k)).
  { unfold grid.
    assert (E' : inject_Z z / pow2 k
                 == inject_Z (z * 2 ^ (- k)) * pow2 k / pow2 k)
      by now rewrite <- M.
    now rewrite (nearestEven_proper _ _ E'). }
  now rewrite G, grid_fix, <- M.
Qed.

(** *** Rounding to a double *)

Lemma binary64_zero : binary64 0 == 0.
Proof. reflexivity. Qed.

Lemma binary64_pos (x : Q) : (0 < x)%Q -> binary64 x = roundPositive x.
Proof.
  intros H. unfold binary64.
  destruct (Qcompare_spec x 0) as [C|C|C]; [|lra|reflexivity].
  rewrite C in H. discriminate H.
Qed.

Lemma binary64_neg (x : Q) : (x < 0)%Q -> binary64 x = (- roundPositive (- x))%Q.
Proof.
  intros H. unfold binary64.
  destruct (Qcompare_spec x 0) as [C|C|C]; [|reflexivity|lra].
  rewrite C in H. discriminate H.
Qed.

Lemma binary64_null (x : Q) : x == 0 -> binary64 x = 0%Q.
Proof.
  intros H. unfold binary64.
  destruct (Qcompare_spec x 0) as [C|C|C]; [reflexivity|lra|lra].
Qed.

Lemma binary64_proper (x y : Q) : x == y -> binary64 x == binary64 y.
Proof.
  intros E. destruct (Q_dec x 0) as [[N|P]|Z0].
  - rewrite (binary64_neg x N), (binary64_neg y) by lra.
    apply Qopp_comp. apply roundPositive_proper; lra.
  - rewrite (binary64_pos x P), (binary64_pos y) by lra.
    now apply roundPositive_proper.
  - rewrite (binary64_null x Z0), (binary64_null y) by lra. reflexivity.
Qed.

Lemma binary64_nonneg (x : Q) : (0 <= x)%Q -> (0 <= binary64 x)%Q.
Proof.
  intros H. destruct (Q_dec x 0) as [[N|P]|Z0].
  - lra.
  - rewrite (binary64_pos x P). now apply roundPositive_nonneg.
  - rewrite (binary64_null x Z0). apply Qle_refl.
Qed.

Lemma binary64_nonpos (x : Q) : (x <= 0)%Q -> (binary64 x <= 0)%Q.
Proof.
  intros H. destruct (Q_dec x 0) as [[N|P]|Z0].
  - rewrite (binary64_neg x N).
    assert (R : (0 <= roundPositive (- x))%Q) by (apply roundPositive_nonneg; lra).
    lra.
  - lra.
  - rewrite (binary64_null x Z0). apply Qle_refl.
Qed.

Lemma binary64_mono (x y : Q) : (x <= y)%Q -> (binary64 x <= binary64 y)%Q.
Proof.
  intros H. destruct (Q_dec x 0) as [[N|P]|Z0].
  - destruct (Qlt_le_dec y 0) as [Ny|Py].
    + rewrite (binary64_neg x N), (binary64_neg y Ny).
      assert (R : (roundPositive (- y) <= roundPositive (- x))%Q)
        by (apply roundPositive_mono; lra).
      lra.
    + apply Qle_trans with 0%Q.
      * apply binary64_nonpos; lra.
      * now apply binary64_nonneg.
  - rewrite (binary64_pos x P), (binary64_pos y) by lra.
    now apply roundPositive_mono.
  - rewrite (binary64_null x Z0). apply binary64_nonneg. lra.
Qed.

Lemma binary64_int (z : Z) :
  - 2 ^ 53 < z < 2 ^ 53 -> binary64 (inject_Z z) == inject_Z z.
Proof.
  intros H. destruct (Z.lt_trichotomy z 0) as [N|[Z0|P]].
  - assert (Hq : (inject_Z z < 0)%Q)
      by (change 0%Q with (inject_Z 0); now rewrite <- Zlt_Qlt).
    rewrite (binary64_neg _ Hq).
    assert (E : - inject_Z z == inject_Z (- z)) by now rewrite inject_Z_opp.
    assert (Hp : (0 < - inject_Z z)%Q)
      by (revert Hq; generalize (inject_Z z); intros q Hq; lra).
    rewrite (roundPositive_proper _ _ Hp E).
    rewrite roundPositive_int by lia. now rewrite inject_Z_opp, Qopp_involutive.
  - subst z. reflexivity.
  - assert (Hq : (0 < inject_Z z)%Q)
      by (change 0%Q with (inject_Z 0); now rewrite <- Zlt_Qlt).
    rewrite (binary64_pos _ Hq). apply roundPositive_int. lia.
Qed.

(** The rounding on values whose doubles are known: 0.1, a tie between two
    doubles (resolved to the even significand), the smallest subnormal. *)
Example binary64_known_values :
  binary64 (1 # 10) == 3602879701896397 # 36028797018963968
  /\ binary64 (inject_Z (2 ^ 53 + 1)) == inject_Z (2 ^ 53)
  /\ binary64 (inject_Z (2 ^ 53 + 3)) == inject_Z (2 ^ 53 + 4)
  /\ binary64 (pow2 (-1075) + pow2 (-1080)) == pow2 (-1074)
  /\ binary64 (pow2 (-1075)) == 0.
Proof. repeat split. Qed.

(** *** The error of one rounding *)






(** *** Math.round *)

Lemma round_int (z : Z) : round (inject_Z z) = z.
Proof.
  unfold round, Qfloor, Qplus, inject_Z. simpl.
  symmetry. apply Z.div_unique with (r := 1); lia.
Qed.

Lemma round_mono (x y : Q) : (x <= y)%Q -> round x <= round y.
Proof.
  intros H. unfold round. apply Qfloor_resp_le.
  apply Qplus_le_compat; [exact H | apply Qle_refl].
Qed.

Lemma round_comp (x y : Q) : x == y -> round x = round y.
Proof.
  intros H. unfold round. apply Qfloor_comp. now rewrite H.
Qed.




Lemma inject_Z_nonneg (W : Z) : 0 <= W -> (0 <= inject_Z W)%Q.
Proof. intros H. change 0%Q with (inject_Z 0). now rewrite <- Zle_Qle. Qed.



Lemma scaled_mono (W : Z) (x y : Q) :
  0 <= W -> (x <= y)%Q -> (x * inject_Z W <= y * inject_Z W)%Q.
Proof.
  intros HW H. apply Qmult_le_compat_r; [exact H|].
  now apply inject_Z_nonneg.
Qed.



Lemma scaledDouble_zero (W : Z) :
  round (binary64 (binary64 0 * inject_Z W)) = 0.
Proof.
  rewrite <- (round_int 0) at 2. apply round_comp.
  assert (E : binary64 0 * inject_Z W == 0).
  { rewrite binary64_zero. apply Qmult_0_l. }
  now rewrite (binary64_proper _ _ E).
Qed.

Lemma isDouble_int (z : Z) : - 2 ^ 53 < z < 2 ^ 53 -> isDouble (inject_Z z).
Proof. apply binary64_int. Qed.





Lemma progressWidth_nonpos (D p : Q) (W : Z) :
  0 <= W -> (p / D <= 0)%Q -> round (binary64 (binary64 (p / D) * inject_Z W)) <= 0.
Proof.
  intros HW H. rewrite <- (scaledDouble_zero W).
  apply round_mono, binary64_mono, scaled_mono; [exact HW|].
  rewrite binary64_zero. now apply binary64_nonpos.
Qed.


(** ** Progress bar *)













(** *** Counting tags in the bar markup *)

Lemma occurrences_app (c : cu) (a b : jstr) :
  occurrences c (a ++ b) = (occurrences c a + occurrences c b)%nat.
Proof. unfold occurrences. now rewrite filter_app, length_app. Qed.













Lemma fillRect_omitted (x y w : Z) : w <= 0 -> fillRect x y (Some w) = [].
Proof.
  intros H. unfold fillRect.
  destruct (w >? 0) eqn:E; [apply Z.gtb_lt in E; lia | reflexivity].
Qed.




(** ** Artwork bytes *)

Lemma split_head (s : jstr) :
  exists t, split comma s = untilComma s :: t.
Proof.
  induction s as [|x s [t IH]]; simpl.
  - now exists [].
  - destruct (N.eqb x comma); [now eexists|].
    rewrite IH. now exists t.
Qed.

(** [split(',')[1]] is the text between the first comma and the next. *)
Lemma split_second (s : jstr) :
  nth_error (split comma s) 1
  = match specAfterFirstComma s with
    | Some rest => Some (untilComma rest)
    | None => None
    end.
Proof.
  induction s as [|x s IH]; [reflexivity|].
  simpl. destruct (N.eqb x comma).
  - destruct (split_head s) as [t ->]. reflexivity.
  - destruct (split_head s) as [t E]. rewrite E in IH |- *. exact IH.
Qed.

Lemma untilComma_all (s : jstr) : ~ In comma s -> untilComma s = s.
Proof.
  induction s as [|x s IH]; intros H; [reflexivity|].
  simpl. destruct (N.eqb_spec x comma) as [->|Hx].
  - exfalso. apply H. now left.
  - f_equal. apply IH. intros Hin. apply H. now right.
Qed.

(** C10, as the code has it. The extractor returns null exactly when its
    input is null or empty. For a non-empty string that starts with
    "data:", the text between the first comma and the next comma (the whole
    remainder when there is no further comma) is base64-decoded, and an
    input with no comma throws; any other non-empty string is decoded whole
    as base64 text. *)
Theorem extract_payload (dataUrl : option jstr) :
  (extractBase64FromDataUrl dataUrl = Ok None
   <-> dataUrl = None \/ dataUrl = Some [])
  /\ (forall s, dataUrl = Some s -> s <> [] ->
        startsWith (lit "data:") s = true ->
        match specAfterFirstComma s with
        | Some rest =>
            extractBase64FromDataUrl dataUrl
            = Ok (Some (FromBase64 (untilComma rest)))
            /\ (~ In comma rest -> untilComma rest = rest)
        | None => extractBase64FromDataUrl dataUrl = Throw TypeError
        end)
  /\ (forall s, dataUrl = Some s -> s <> [] ->
        startsWith (lit "data:") s = false ->
        extractBase64FromDataUrl dataUrl = Ok (Some (FromBase64 s))).
Proof.
  split; [|split].
  - split.
    + destruct dataUrl as [[|x s]|]; [now right | | now left].
      unfold extractBase64FromDataUrl.
      destruct (startsWith (lit "data:") (x :: s)); [|discriminate].
      destruct (nth_error (split comma (x :: s)) 1); discriminate.
    + intros [-> | ->]; reflexivity.
  - intros s -> Hs Hd. destruct s as [|x s]; [contradiction|].
    unfold extractBase64FromDataUrl. rewrite Hd, split_second.
    destruct (specAfterFirstComma (x :: s)) as [rest|]; [|reflexivity].
    split; [reflexivity | apply untilComma_all].
  - intros s -> Hs Hd. destruct s as [|x s]; [contradiction|].
    unfold extractBase64FromDataUrl. now rewrite Hd.
Qed.

Lemma extract_payload_witness :
  extractBase64FromDataUrl (Some (lit "data:image/png;base64,iVBORw0KGgo="))
  = Ok (Some (FromBase64 (lit "iVBORw0KGgo=")))
  /\ extractBase64FromDataUrl (Some (lit "data:image/png;base64"))
     = Throw TypeError
  /\ extractBase64FromDataUrl (Some (lit "iVBORw0KGgo="))
     = Ok (Some (FromBase64 (lit "iVBORw0KGgo="))).
Proof.
  split; [|split].
  - destruct (extract_payload (Some (lit "data:image/png;base64,iVBORw0KGgo=")))
      as [_ [H _]].
    specialize (H _ eq_refl). simpl in H.
    apply H; [discriminate | reflexivity].
  - destruct (extract_payload (Some (lit "data:image/png;base64")))
      as [_ [H _]].
    specialize (H _ eq_refl). simpl in H.
    apply H; [discriminate | reflexivity].
  - destruct (extract_payload (Some (lit "iVBORw0KGgo="))) as [_ [_ H]].
    apply (H _ eq_refl); [discriminate | reflexivity].
Defined.

(** C10 as stated fails when the text after the first comma holds another
    comma: only the part up to that comma is decoded. *)
Lemma extract_stops_at_second_comma :
  extractBase64FromDataUrl (Some (lit "data:image/png;base64,AAAA,BBBB"))
  = Ok (Some (FromBase64 (lit "AAAA")))
  /\ specAfterFirstComma (lit "data:image/png;base64,AAAA,BBBB")
     = Some (lit "AAAA,BBBB")
  /\ ~ (forall s rest, s <> [] -> startsWith (lit "data:") s = true ->
          specAfterFirstComma s = Some rest ->
          extractBase64FromDataUrl (Some s) = Ok (Some (FromBase64 rest))).
Proof.
  split; [reflexivity|]. split; [reflexivity|].
  intros H.
  specialize (H (lit "data:image/png;base64,AAAA,BBBB") (lit "AAAA,BBBB")).
  assert (E : extractBase64FromDataUrl
                (Some (lit "data:image/png;base64,AAAA,BBBB"))
              = Ok (Some (FromBase64 (lit "AAAA,BBBB")))).
  { apply H; [discriminate | reflexivity | reflexivity]. }
  vm_compute in E. discriminate E.
Qed.

(** ** The renderer *)

Lemma startsWith_app (p r : jstr) : startsWith p (p ++ r) = true.
Proof.
  induction p as [|a p IH]; [reflexivity|].
  simpl. now rewrite N.eqb_refl.
Qed.

Lemma cropRegion_not_left (p : jstr) :
  p <> lit "left" -> cropRegion p = cropRegion (lit "right").
Proof.
  intros H. unfold cropRegion, cropX. now rewrite (isLeft_false p H).
Qed.

Lemma fallbackSvg_not_left (p : jstr) :
  p <> lit "left" -> fallbackSvg p = fallbackSvg (lit "right").
Proof.
  intros H. unfold fallbackSvg. now rewrite (isLeft_false p H).
Qed.

Section RendererFacts.

Variable lib : Raster.

Lemma cropToDataUrl_not_left (ls : list layer) (p : jstr) :
  p <> lit "left" ->
  cropToDataUrl lib ls p = cropToDataUrl lib ls (lit "right").
Proof.
  intros H. unfold cropToDataUrl. now rewrite (cropRegion_not_left p H).
Qed.

Lemma createFallback_not_left (p : jstr) :
  p <> lit "left" ->
  createFallback lib (Some p) = createFallback lib (Some (lit "right")).
Proof.
  intros H. unfold createFallback, positionArg.
  now rewrite (fallbackSvg_not_left p H).
Qed.

Lemma cropToDataUrl_is_dataUrl (ls : list layer) (p v : jstr) :
  cropToDataUrl lib ls p = Ok v -> exists payload, v = dataUrl payload.
Proof.
  unfold cropToDataUrl, bind.
  destruct (composite lib fullWidth lcdHeight ls) as [full|]; [|discriminate].
  destruct (extract lib full (cropRegion p)) as [slice|]; [|discriminate].
  intros E. injection E as <-. now eexists.
Qed.

Lemma createFallback_is_dataUrl (p : option jstr) (v : jstr) :
  createFallback lib p = Ok v -> exists payload, v = dataUrl payload.
Proof.
  unfold createFallback, bind.
  destruct (toPng lib _) as [png|]; [|discriminate].
  intros E. injection E as <-. now eexists.
Qed.

Lemma render_is_dataUrl (t : option TrackInfo) (p : option jstr) (v : jstr) :
  render lib t p = Ok v -> exists payload, v = dataUrl payload.
Proof.
  unfold render, tryCatch.
  destruct (renderBody lib t (positionArg p)) as [u|e] eqn:E.
  - intros H. injection H as <-. destruct t as [t|]; [|discriminate].
    now apply cropToDataUrl_is_dataUrl in E.
  - apply createFallback_is_dataUrl.
Qed.

Lemma createBlank_is_dataUrl (p : option jstr) (v : jstr) :
  createBlank lib p = Ok v -> exists payload, v = dataUrl payload.
Proof.
  unfold createBlank, tryCatch.
  destruct (cropToDataUrl lib blankLayers (positionArg p)) as [u|e] eqn:E.
  - intros H. injection H as <-. now apply cropToDataUrl_is_dataUrl in E.
  - unfold bind. destruct (toPng lib _) as [png|]; [|discriminate].
    intros H. injection H as <-. now eexists.
Qed.

Lemma artLayers_decode_fails (t : TrackInfo) (s : jstr) :
  thumbnail t = Some s -> decodeFails lib s -> artLayers lib t = [].
Proof.
  intros Ht Hf. unfold artLayers. rewrite Ht.
  destruct s as [|x s]; [reflexivity|].
  unfold bind.
  match goal with
  | |- context [extractBase64FromDataUrl ?a] =>
      change (decodeFails lib (x :: s)) with
        (match extractBase64FromDataUrl a with
         | Throw _ => True
         | Ok None => False
         | Ok (Some b) =>
             exists e, resizeCover lib b artworkSize artworkSize = Throw e
         end) in Hf;
      destruct (extractBase64FromDataUrl a) as [[b|]|e]
  end; try reflexivity.
  destruct Hf as [e ->]. reflexivity.
Qed.

End RendererFacts.




(** C4, as the code has it. For every raster library and every track
    whose artwork cannot be decoded (the payload cannot be extracted, or
    the library rejects the bytes): the artwork block raises nothing and
    contributes no layer, a placeholder no more than the artwork: the
    composed layers are exactly the text layer and the progress-bar layer
    of that track, whose drawing starts at column 108, to the right of the
    100 columns of the artwork region, which is left to the black
    background of the canvas. The text layer holds the text markup of the
    track and the bar layer its progress bar. When composing those two
    layers and cropping succeed, [render] returns the data URL of the
    requested slice; when one of them raises, it returns what
    [createFallback] returns; either way, what it returns for the track
    without artwork. *)
Theorem art_decode_fails_soft (lib : Raster) (t : TrackInfo) (s : jstr)
  (pos : option jstr) :
  thumbnail t = Some s -> decodeFails lib s ->
  artLayers lib t = []
  /\ renderLayers lib t = [textLayer t; barLayer t]
  /\ (forall l, In l (renderLayers lib t) -> l = textLayer t \/ l = barLayer t)
  /\ textLayer t = textLayer (withThumbnail t None)
  /\ barLayer t = barLayer (withThumbnail t None)
  /\ textLayer t = {| input := FromText (buildTextSvg t textAreaWidth);
                      left_ := 108; top_ := 0 |}
  /\ barLayer t
     = {| input := createProgressBar (duration t) (position t) 276 108 75;
          left_ := 0; top_ := 0 |}
  /\ artworkSize <= left_ (textLayer t)
  /\ artworkSize <= barX
  /\ (forall full slice,
        composite lib fullWidth lcdHeight [textLayer t; barLayer t] = Ok full ->
        extract lib full (cropRegion (positionArg pos)) = Ok slice ->
        render lib (Some t) pos = Ok (dataUrl (toBase64 lib slice)))
  /\ (forall e,
        composite lib fullWidth lcdHeight [textLayer t; barLayer t] = Throw e ->
        render lib (Some t) pos = createFallback lib (Some (positionArg pos)))
  /\ (forall full e,
        composite lib fullWidth lcdHeight [textLayer t; barLayer t] = Ok full ->
        extract lib full (cropRegion (positionArg pos)) = Throw e ->
        render lib (Some t) pos = createFallback lib (Some (positionArg pos)))
  /\ renderLayers lib t = renderLayers lib (withThumbnail t None)
  /\ render lib (Some t) pos = render lib (Some (withThumbnail t None)) pos.
Proof.
  intros Ht Hf.
  assert (A : artLayers lib t = []) by now apply (artLayers_decode_fails lib t s).
  assert (R : renderLayers lib t = [textLayer t; barLayer t])
    by (unfold renderLayers; now rewrite A).
  assert (L : renderLayers lib t = renderLayers lib (withThumbnail t None)).
  { unfold renderLayers. rewrite A. reflexivity. }
  split; [exact A|].
  split; [exact R|].
  split.
  { intros l Hl. rewrite R in Hl.
    destruct Hl as [<- | [<- | []]]; [now left | now right]. }
  split; [reflexivity|]. split; [reflexivity|].
  split; [reflexivity|]. split; [reflexivity|].
  split; [vm_compute; discriminate|].
  split; [vm_compute; discriminate|].
  split.
  { intros full slice Hc He.
    unfold render, tryCatch, renderBody, cropToDataUrl, bind.
    rewrite R, Hc, He. reflexivity. }
  split.
  { intros e Hc.
    unfold render, tryCatch, renderBody, cropToDataUrl, bind.
    rewrite R, Hc. reflexivity. }
  split.
  { intros full e Hc He.
    unfold render, tryCatch, renderBody, cropToDataUrl, bind.
    rewrite R, Hc, He. reflexivity. }
  split; [exact L|].
  unfold render, renderBody. now rewrite L.
Qed.

Lemma art_decode_fails_soft_witness :
  let t := withThumbnail midnightCity (Some (lit "not an image")) in
  artLayers undecodingRaster t = []
  /\ renderLayers undecodingRaster t = [textLayer t; barLayer t]
  /\ render undecodingRaster (Some t) (Some (lit "left"))
     = render undecodingRaster (Some midnightCity) (Some (lit "left"))
  /\ exists full slice,
       composite undecodingRaster fullWidth lcdHeight
         [textLayer t; barLayer t] = Ok full
       /\ extract undecodingRaster full (cropRegion (lit "left")) = Ok slice
       /\ render undecodingRaster (Some t) (Some (lit "left"))
          = Ok (dataUrl (toBase64 undecodingRaster slice)).
Proof.
  cbv zeta.
  assert (Hf : decodeFails undecodingRaster (lit "not an image")).
  { exists RasterError. reflexivity. }
  destruct (art_decode_fails_soft undecodingRaster
              (withThumbnail midnightCity (Some (lit "not an image")))
              (lit "not an image") (Some (lit "left")) eq_refl Hf)
    as [A [L [_ [_ [_ [_ [_ [_ [_ [C [_ [_ [_ R]]]]]]]]]]]]].
  split; [exact A|]. split; [exact L|]. split; [exact R|].
  eexists; eexists. split; [reflexivity|]. split; [reflexivity|].
  exact (C _ _ eq_refl eq_refl).
Defined.

(** C4 as stated fails in two places. The renderer substitutes no
    placeholder: with artwork that is not an image, the layers composed
    are the text and the bar alone, where the idle picture has its dark
    artwork layer first; no layer comes in place of the artwork. And the
    extraction does not return null on bytes it cannot read: on a data URL
    without a comma it raises, which the artwork block of [render]
    catches. *)
Lemma no_placeholder_for_broken_artwork :
  let t := withThumbnail midnightCity (Some (lit "not an image")) in
  decodeFails undecodingRaster (lit "not an image")
  /\ renderLayers undecodingRaster t = [textLayer t; barLayer t]
  /\ ~ (exists placeholder,
          renderLayers undecodingRaster t
          = [placeholder; textLayer t; barLayer t])
  /\ ~ (forall lib t s, thumbnail t = Some s -> decodeFails lib s ->
          exists placeholder,
            renderLayers lib t = [placeholder; textLayer t; barLayer t])
  /\ (exists rest,
        blankLayers
        = {| input := FromText darkArtSvg; left_ := 0; top_ := 0 |} :: rest)
  /\ extractBase64FromDataUrl (Some (lit "data:image/png;base64"))
     = Throw TypeError
  /\ decodeFails undecodingRaster (lit "data:image/png;base64")
  /\ ~ (forall s, extractBase64FromDataUrl (Some s) = Ok None
                  \/ exists b, extractBase64FromDataUrl (Some s) = Ok (Some b)).
Proof.
  cbv zeta.
  assert (Hf : decodeFails undecodingRaster (lit "not an image")).
  { exists RasterError. reflexivity. }
  split; [exact Hf|].
  split; [reflexivity|].
  split; [intros [ph E]; discriminate E|].
  split.
  { intros H.
    destruct (H undecodingRaster
                (withThumbnail midnightCity (Some (lit "not an image")))
                (lit "not an image") eq_refl Hf) as [ph E].
    discriminate E. }
  split; [eexists; reflexivity|].
  split; [reflexivity|].
  split; [exact I|].
  intros H. destruct (H (lit "data:image/png;base64")) as [E | [b E]];
    discriminate E.
Qed.



(** C9. Positions other than "left". For every raster library, track and
    position string different from "left" (a misspelling, any other text):
    the crop starts at the midpoint, column [dialWidth]: the region
    extracted is the 200 x 100 one at column 200, and when composing and
    extracting succeed [render] and [createBlank] return the data URL of
    that slice of their canvas; [createFallback], which crops nothing,
    draws the picture it draws for "right", which is not the one for
    "left"; all three return what they return for "right". With the
    position omitted the region extracted is the one at column 0, and they
    return what they return for "left". *)
Theorem position_other_than_left (lib : Raster) (t : option TrackInfo)
  (p : jstr) :
  p <> lit "left" ->
  cropX p = dialWidth
  /\ 2 * cropX p = fullWidth
  /\ cropRegion p = cropRegion (lit "right")
  /\ render lib t (Some p) = render lib t (Some (lit "right"))
  /\ createBlank lib (Some p) = createBlank lib (Some (lit "right"))
  /\ createFallback lib (Some p) = createFallback lib (Some (lit "right"))
  /\ cropX (positionArg None) = 0
  /\ render lib t None = render lib t (Some (lit "left"))
  /\ createBlank lib None = createBlank lib (Some (lit "left"))
  /\ createFallback lib None = createFallback lib (Some (lit "left"))
  /\ cropRegion p
     = {| rleft := 200; rtop := 0; rwidth := 200; rheight := 100 |}
  /\ (forall track full slice,
        t = Some track ->
        composite lib fullWidth lcdHeight (renderLayers lib track) = Ok full ->
        extract lib full
          {| rleft := 200; rtop := 0; rwidth := 200; rheight := 100 |}
        = Ok slice ->
        render lib t (Some p) = Ok (dataUrl (toBase64 lib slice)))
  /\ (forall full slice,
        composite lib fullWidth lcdHeight blankLayers = Ok full ->
        extract lib full
          {| rleft := 200; rtop := 0; rwidth := 200; rheight := 100 |}
        = Ok slice ->
        createBlank lib (Some p) = Ok (dataUrl (toBase64 lib slice)))
  /\ (forall png,
        toPng lib (FromText (fallbackSvg (lit "right"))) = Ok png ->
        createFallback lib (Some p) = Ok (dataUrl (toBase64 lib png)))
  /\ fallbackSvg (lit "right") <> fallbackSvg (lit "left")
  /\ cropRegion (positionArg None)
     = {| rleft := 0; rtop := 0; rwidth := 200; rheight := 100 |}
  /\ (forall track full slice,
        t = Some track ->
        composite lib fullWidth lcdHeight (renderLayers lib track) = Ok full ->
        extract lib full
          {| rleft := 0; rtop := 0; rwidth := 200; rheight := 100 |}
        = Ok slice ->
        render lib t None = Ok (dataUrl (toBase64 lib slice)))
  /\ (forall full slice,
        composite lib fullWidth lcdHeight blankLayers = Ok full ->
        extract lib full
          {| rleft := 0; rtop := 0; rwidth := 200; rheight := 100 |}
        = Ok slice ->
        createBlank lib None = Ok (dataUrl (toBase64 lib slice)))
  /\ (forall png,
        toPng lib (FromText (fallbackSvg (lit "left"))) = Ok png ->
        createFallback lib None = Ok (dataUrl (toBase64 lib png))).
Proof.
  intros Hp.
  assert (Hx : cropX p = dialWidth)
    by (unfold cropX; now rewrite (isLeft_false p Hp)).
  assert (Hr : cropRegion p
               = {| rleft := 200; rtop := 0; rwidth := 200; rheight := 100 |})
    by (unfold cropRegion; rewrite Hx; reflexivity).
  split; [exact Hx|].
  split; [rewrite Hx; reflexivity|].
  split; [now apply cropRegion_not_left|].
  split.
  { unfold render, tryCatch, renderBody, positionArg.
    rewrite (createFallback_not_left lib p Hp).
    destruct t as [t|]; [|reflexivity].
    now rewrite (cropToDataUrl_not_left lib _ p Hp). }
  split.
  { unfold createBlank, positionArg.
    now rewrite (cropToDataUrl_not_left lib _ p Hp). }
  split; [now apply createFallback_not_left|].
  split; [reflexivity|]. split; [reflexivity|].
  split; [reflexivity|]. split; [reflexivity|].
  split; [exact Hr|].
  split.
  { intros track full slice -> Hc He.
    unfold render, tryCatch, renderBody, cropToDataUrl, bind, positionArg.
    rewrite Hc, Hr, He. reflexivity. }
  split.
  { intros full slice Hc He.
    unfold createBlank, tryCatch, cropToDataUrl, bind, positionArg.
    rewrite Hc, Hr, He. reflexivity. }
  split.
  { intros png E. rewrite (createFallback_not_left lib p Hp).
    unfold createFallback, bind, positionArg. now rewrite E. }
  split; [vm_compute; discriminate|].
  split; [reflexivity|].
  split.
  { intros track full slice -> Hc He.
    unfold render, tryCatch, renderBody, cropToDataUrl, bind, positionArg.
    rewrite Hc.
    change (cropRegion (lit "left"))
      with {| rleft := 0; rtop := 0; rwidth := 200; rheight := 100 |}.
    rewrite He. reflexivity. }
  split.
  { intros full slice Hc He.
    unfold createBlank, tryCatch, cropToDataUrl, bind, positionArg.
    rewrite Hc.
    change (cropRegion (lit "left"))
      with {| rleft := 0; rtop := 0; rwidth := 200; rheight := 100 |}.
    rewrite He. reflexivity. }
  intros png E. unfold createFallback, bind, positionArg. now rewrite E.
Qed.

Lemma position_other_than_left_witness :
  cropX (lit "rihgt") = 200
  /\ render recordingRaster (Some midnightCity) (Some (lit "rihgt"))
     = render recordingRaster (Some midnightCity) (Some (lit "right"))
  /\ createFallback recordingRaster (Some (lit "Left"))
     = createFallback recordingRaster (Some (lit "right"))
  /\ (exists canvas,
        render recordingRaster (Some midnightCity) (Some (lit "rihgt"))
        = Ok (dataUrl (3 :: 12 :: 200 :: 0 :: 200 :: 100 :: canvas)%N)
        /\ render recordingRaster (Some midnightCity) None
           = Ok (dataUrl (3 :: 12 :: 0 :: 0 :: 200 :: 100 :: canvas)%N)).
Proof.
  assert (H1 : lit "rihgt" <> lit "left") by discriminate.
  assert (H2 : lit "Left" <> lit "left") by discriminate.
  destruct (position_other_than_left recordingRaster (Some midnightCity)
              (lit "rihgt") H1)
    as [Hx [_ [_ [Hr [_ [_ [_ [_ [_ [_ [_ [Hs [_ [_ [_ [_ [Hn _]]]]]]]]]]]]]]]]].
  destruct (position_other_than_left recordingRaster (Some midnightCity)
              (lit "Left") H2) as [_ [_ [_ [_ [_ [Hf _]]]]]].
  split; [exact Hx|]. split; [exact Hr|]. split; [exact Hf|].
  eexists. split.
  - etransitivity; [eapply Hs; reflexivity|]. reflexivity.
  - etransitivity; [eapply Hn; reflexivity|]. reflexivity.
Defined.

(** ** Further properties of the text layout *)

Lemma isSpecial_false (c : cu) :
  isSpecial c = false ->
  N.eqb c amp = false /\ N.eqb c lt = false /\ N.eqb c gt = false
  /\ N.eqb c dquote = false /\ N.eqb c squote = false.
Proof.
  unfold isSpecial. simpl. intros H.
  repeat (apply orb_false_iff in H; destruct H as [? H]). auto.
Qed.

Lemma escapeChar_plain (c : cu) : isSpecial c = false -> escapeChar c = [c].
Proof.
  intros H. apply isSpecial_false in H as [Ha [Hl [Hg [Hd Hs]]]].
  unfold escapeChar. now rewrite Ha, Hl, Hg, Hd, Hs.
Qed.

(** X1. Text without markup characters passes through [escapeXml] unchanged. *)
Theorem escapeXml_plain_unchanged (s : jstr) :
  Forall (fun c => isSpecial c = false) s -> escapeXml s = s.
Proof.
  intros H. rewrite escapeXml_one_pass.
  induction H as [|c s Hc _ IH]; [reflexivity|].
  simpl. now rewrite (escapeChar_plain c Hc), IH.
Qed.

Lemma escapeXml_plain_unchanged_witness :
  escapeXml (lit "Midnight City") = lit "Midnight City".
Proof.
  apply escapeXml_plain_unchanged.
  repeat (constructor; [reflexivity|]). constructor.
Defined.

(** X2. Escaping works character by character: the escape of a concatenation
    is the concatenation of the escapes. *)
Theorem escapeXml_concat (a b : jstr) :
  escapeXml (a ++ b) = escapeXml a ++ escapeXml b.
Proof. rewrite !escapeXml_one_pass. apply flat_map_app. Qed.

Lemma escapeChar_length (c : cu) :
  (1 <= List.length (escapeChar c) <= 6)%nat.
Proof.
  unfold escapeChar.
  repeat match goal with
         | |- context [if ?b then _ else _] => destruct b
         end; simpl; lia.
Qed.

Lemma len_escapeXml (s : jstr) :
  len s <= len (escapeXml s) <= 6 * len s.
Proof.
  rewrite escapeXml_one_pass. unfold len.
  induction s as [|c s IH]; [simpl; lia|].
  simpl flat_map. rewrite length_app. simpl List.length.
  pose proof (escapeChar_length c). lia.
Qed.

(** X4. Escaping never shortens a text and lengthens it at most six times
    (a double quote becomes the six characters of its reference). *)
Theorem escapeXml_length (s : jstr) :
  len s <= len (escapeXml s) <= 6 * len s.
Proof. apply len_escapeXml. Qed.

Lemma escapeChar_not_nil (c : cu) : escapeChar c <> [].
Proof.
  pose proof (escapeChar_length c) as H. intros E. rewrite E in H.
  simpl in H. lia.
Qed.

(** What [escapeXml] writes for one character never begins what it writes
    for another. *)
Lemma escapeChar_unique (a b : cu) (r1 r2 : jstr) :
  escapeChar a ++ r1 = escapeChar b ++ r2 -> a = b /\ r1 = r2.
Proof.
  unfold escapeChar.
  destruct (N.eqb_spec a amp) as [->|Ha1];
    [|destruct (N.eqb_spec a lt) as [->|Ha2];
      [|destruct (N.eqb_spec a gt) as [->|Ha3];
        [|destruct (N.eqb_spec a dquote) as [->|Ha4];
          [|destruct (N.eqb_spec a squote) as [->|Ha5]]]]];
    (destruct (N.eqb_spec b amp) as [->|Hb1];
     [|destruct (N.eqb_spec b lt) as [->|Hb2];
       [|destruct (N.eqb_spec b gt) as [->|Hb3];
         [|destruct (N.eqb_spec b dquote) as [->|Hb4];
           [|destruct (N.eqb_spec b squote) as [->|Hb5]]]]]);
    simpl; intros H; try discriminate H;
    try (injection H as H; subst; auto; fail);
    try (injection H; intros; subst; exfalso; auto; fail).
Qed.

(** X3. Escaping loses nothing: two different texts never get the same
    escaped text. *)
Theorem escapeXml_injective (s1 s2 : jstr) :
  escapeXml s1 = escapeXml s2 -> s1 = s2.
Proof.
  rewrite !escapeXml_one_pass. revert s2.
  induction s1 as [|a s1 IH]; intros [|b s2] H; simpl in H.
  - reflexivity.
  - symmetry in H. apply app_eq_nil in H as [H _].
    now apply escapeChar_not_nil in H.
  - apply app_eq_nil in H as [H _]. now apply escapeChar_not_nil in H.
  - apply escapeChar_unique in H as [-> H]. f_equal. now apply IH.
Qed.

Lemma escapeXml_injective_witness :
  lit "R&B" = lit "R&B".
Proof.
  apply escapeXml_injective. reflexivity.
Defined.

(** X5. Truncating twice is truncating once. *)
Theorem truncate_idempotent (s : jstr) (B : Z) :
  3 <= B -> truncate (truncate s B) B = truncate s B.
Proof.
  intros HB. apply truncate_short.
  destruct (Z_lt_le_dec B (len s)) as [H|H].
  - rewrite (truncate_long s B H), len_app, len_substring0 by lia.
    change (len (lit "...")) with 3. lia.
  - now rewrite truncate_short.
Qed.

Lemma truncate_idempotent_witness :
  truncate (truncate (lit "The Rime of the Ancient Mariner (Live)") 28) 28
  = truncate (lit "The Rime of the Ancient Mariner (Live)") 28.
Proof.
  apply truncate_idempotent. lia.
Defined.

(** X6. With a budget below 3 nothing of an over-long text is kept: it becomes
    the three dots alone, which are longer than the budget. *)
Theorem truncate_tiny_budget (s : jstr) (B : Z) :
  B < 3 -> B < len s ->
  truncate s B = lit "..." /\ B < len (truncate s B).
Proof.
  intros HB Hs. rewrite (truncate_long s B Hs).
  assert (E : substring0 (B - 3) s = []).
  { unfold substring0. replace (Z.to_nat (B - 3)) with 0%nat by lia.
    reflexivity. }
  rewrite E. split; [reflexivity|]. change (len ([] ++ lit "...")) with 3. lia.
Qed.

Lemma truncate_tiny_budget_witness :
  truncate (lit "abc") 2 = lit "..." /\ 2 < len (truncate (lit "abc") 2).
Proof.
  apply truncate_tiny_budget; [lia | vm_compute; reflexivity].
Defined.

(** The text markup is three constant parts around the two escaped
    texts. *)
Lemma buildTextSvg_parts (t : TrackInfo) (w : Z) :
  buildTextSvg t w
  = textMarkupHead ++ titleText t ++ textMarkupMiddle ++ artistText t
    ++ textMarkupTail.
Proof.
  unfold buildTextSvg, textMarkupHead, textMarkupMiddle, textMarkupTail,
    textElem, line.
  repeat (rewrite <- ?app_assoc, <- ?app_comm_cons). reflexivity.
Qed.

Lemma occurrences_rawFree (s : jstr) (c : cu) :
  rawFree s = true -> In c [lt; gt; dquote; squote] -> occurrences c s = 0%nat.
Proof.
  intros Hs Hc. pose proof (rawFree_no_special s c Hs Hc) as Hn.
  unfold occurrences. induction s as [|x s IH]; [reflexivity|].
  simpl. destruct (N.eqb_spec c x) as [->|Hx].
  - exfalso. apply Hn. now left.
  - apply IH.
    + rewrite rawFree_cons in Hs. now apply andb_true_iff in Hs.
    + intros Hin. apply Hn. now right.
Qed.

(** X7. Whatever the title and the artist hold, the text markup has exactly
    8 opening angle brackets, 8 closing angle brackets and 18 double
    quotes. *)
Theorem text_markup_structure_fixed (t : TrackInfo) (w : Z) :
  occurrences lt (buildTextSvg t w) = 8%nat
  /\ occurrences gt (buildTextSvg t w) = 8%nat
  /\ occurrences dquote (buildTextSvg t w) = 18%nat.
Proof.
  assert (Ht : rawFree (titleText t) = true) by apply rawFree_escapeXml.
  assert (Ha : rawFree (artistText t) = true) by apply rawFree_escapeXml.
  rewrite buildTextSvg_parts, !occurrences_app.
  rewrite !(occurrences_rawFree (titleText t)),
    !(occurrences_rawFree (artistText t)); simpl; auto.
Qed.

(** X8. The text markup stays small: each escaped text is at most six times
    its budget long, and the whole markup at most 756 characters, however
    long the title and the artist are. *)
Theorem text_markup_bounded (t : TrackInfo) (w : Z) :
  len (titleText t) <= 6 * titleBudget
  /\ len (artistText t) <= 6 * artistBudget
  /\ len (buildTextSvg t w) <= 756.
Proof.
  assert (HT : len (truncate (titleOf t) titleBudget) <= titleBudget).
  { destruct (Z_lt_le_dec titleBudget (len (titleOf t))) as [H|H].
    - rewrite (truncate_long _ _ H), len_app, len_substring0
        by (unfold titleBudget in *; lia).
      change (len (lit "...")) with 3. lia.
    - now rewrite truncate_short. }
  assert (HA : len (truncate (artistOf t) artistBudget) <= artistBudget).
  { destruct (Z_lt_le_dec artistBudget (len (artistOf t))) as [H|H].
    - rewrite (truncate_long _ _ H), len_app, len_substring0
        by (unfold artistBudget in *; lia).
      change (len (lit "...")) with 3. lia.
    - now rewrite truncate_short. }
  assert (T : len (titleText t) <= 6 * titleBudget).
  { unfold titleText.
    pose proof (len_escapeXml (truncate (titleOf t) titleBudget)). lia. }
  assert (A : len (artistText t) <= 6 * artistBudget).
  { unfold artistText.
    pose proof (len_escapeXml (truncate (artistOf t) artistBudget)). lia. }
  split; [exact T|]. split; [exact A|].
  rewrite buildTextSvg_parts, !len_app.
  change (len textMarkupHead) with 325.
  change (len textMarkupMiddle) with 48.
  change (len textMarkupTail) with 23.
  unfold titleBudget, artistBudget in *. lia.
Qed.

(** ** Further properties of the progress bar *)



(** X12. A negative duration never draws a fill for a position that is not
    negative. *)
Theorem negative_duration_no_fill (D p : Q) (W x y : Z) :
  (D < 0)%Q -> (0 <= p)%Q -> 0 <= W ->
  fillRect x y (progressWidth D (Some p) W) = []
  /\ createProgressBar (Some D) (Some p) W x y
     = FromText (line 6 (svgOpen 400 100) ++ line 8 (trackRect x y W)
                 ++ line 8 [] ++ line 6 svgClose ++ line 4 []).
Proof.
  intros HD Hp HW.
  assert (Hr : (p / D <= 0)%Q).
  { assert (Hn : (0 < - D)%Q).
    { apply Qplus_lt_l with (z := D).
      setoid_replace (- D + D)%Q with 0%Q by ring. now rewrite Qplus_0_l. }
    assert (Hq : (0 <= p / - D)%Q).
    { apply Qle_shift_div_l; [exact Hn|]. now rewrite Qmult_0_l. }
    assert (HD0 : ~ D == 0).
    { intros E. rewrite E in HD. discriminate. }
    setoid_replace (p / D)%Q with (- (p / - D))%Q by (field; exact HD0).
    apply Qplus_le_l with (z := (p / - D)%Q).
    setoid_replace (- (p / - D) + p / - D)%Q with 0%Q by ring.
    now rewrite Qplus_0_l. }
  assert (F : fillRect x y (progressWidth D (Some p) W) = []).
  { unfold progressWidth. apply fillRect_omitted.
    now apply progressWidth_nonpos. }
  split; [exact F|].
  unfold createProgressBar, progressSvg.
  assert (E : Qeq_bool D 0 = false).
  { destruct (Qeq_bool D 0) eqn:E; [|reflexivity].
    apply Qeq_bool_iff in E. rewrite E in HD. discriminate. }
  rewrite E. unfold filledBarSvg. now rewrite F.
Qed.

Lemma negative_duration_no_fill_witness :
  fillRect barX barY (progressWidth (-1) (Some 30%Q) barWidth) = [].
Proof.
  apply (negative_duration_no_fill (-1) 30 barWidth barX barY);
    [reflexivity | discriminate | vm_compute; discriminate].
Defined.

(** ** Further properties of the artwork bytes *)

Lemma specAfterFirstComma_app (a r : jstr) :
  ~ In comma a -> specAfterFirstComma (a ++ comma :: r) = Some r.
Proof.
  induction a as [|x a IH]; intros H; simpl.
  - reflexivity.
  - destruct (N.eqb_spec x comma) as [->|Hx].
    + exfalso. apply H. now left.
    + apply IH. intros Hin. apply H. now right.
Qed.

(** X13. A base64 data URL is parsed back to its payload: for every media type
    and payload without a comma, the extractor applied to
    "data:<media type>;base64,<payload>" decodes exactly the payload. The
    renderer's own output is such a URL. *)
Theorem data_url_round_trip (mediaType payload : jstr) :
  ~ In comma mediaType -> ~ In comma payload ->
  extractBase64FromDataUrl (Some (dataUrlOf mediaType payload))
  = Ok (Some (FromBase64 payload))
  /\ dataUrl payload = dataUrlOf (lit "image/png") payload.
Proof.
  intros Hm Hp. split; [|reflexivity].
  assert (S : specAfterFirstComma (dataUrlOf mediaType payload) = Some payload).
  { unfold dataUrlOf.
    change (lit ";base64,") with (lit ";base64" ++ [comma]).
    rewrite <- !app_assoc. change ([comma] ++ payload) with (comma :: payload).
    rewrite !app_assoc. apply specAfterFirstComma_app.
    intros Hin. apply in_app_or in Hin as [Hin | Hin].
    - apply in_app_or in Hin as [Hin | Hin]; [|contradiction].
      vm_compute in Hin. intuition discriminate.
    - vm_compute in Hin. intuition discriminate. }
  assert (W : startsWith (lit "data:") (dataUrlOf mediaType payload) = true)
    by apply startsWith_app.
  pose proof (split_second (dataUrlOf mediaType payload)) as N.
  rewrite S, (untilComma_all payload Hp) in N.
  unfold extractBase64FromDataUrl.
  destruct (dataUrlOf mediaType payload) as [|c r] eqn:E; [discriminate E|].
  now rewrite W, N.
Qed.

Lemma data_url_round_trip_witness :
  extractBase64FromDataUrl (Some (dataUrl (lit "iVBORw0KGgo=")))
  = Ok (Some (FromBase64 (lit "iVBORw0KGgo="))).
Proof.
  assert (Hm : ~ In comma (lit "image/png"))
    by (vm_compute; intuition discriminate).
  assert (Hp : ~ In comma (lit "iVBORw0KGgo="))
    by (vm_compute; intuition discriminate).
  exact (proj1 (data_url_round_trip (lit "image/png") (lit "iVBORw0KGgo=")
                  Hm Hp)).
Defined.

(** ** Further properties of the renderer *)

(** X14. The layers [render] composes. When the track has a thumbnail,
    [extractBase64FromDataUrl] returns a buffer for it and the library's
    100 x 100 cover resize of that buffer succeeds, they are the resized
    image at the top-left corner, then the text layer, then the
    progress-bar layer: the bar is drawn over the text, and both over the
    artwork. In every other case (no thumbnail, no buffer, a failure of
    the extraction or of the resize) they are the text layer and then the
    progress-bar layer. The buffer resized is decoded from base64 text. *)
Theorem render_layer_order (lib : Raster) (t : TrackInfo) :
  (thumbnail t = None -> renderLayers lib t = [textLayer t; barLayer t])
  /\ (forall s, thumbnail t = Some s ->
        match extractBase64FromDataUrl (Some s) with
        | Ok (Some b) =>
            match resizeCover lib b artworkSize artworkSize with
            | Ok art =>
                renderLayers lib t
                = [{| input := art; left_ := 0; top_ := 0 |};
                   textLayer t; barLayer t]
            | Throw _ => renderLayers lib t = [textLayer t; barLayer t]
            end
        | Ok None | Throw _ =>
            renderLayers lib t = [textLayer t; barLayer t]
        end)
  /\ (renderLayers lib t = [textLayer t; barLayer t]
      \/ exists s b art,
           thumbnail t = Some s
           /\ extractBase64FromDataUrl (Some s) = Ok (Some b)
           /\ resizeCover lib b artworkSize artworkSize = Ok art
           /\ renderLayers lib t
              = [{| input := art; left_ := 0; top_ := 0 |};
                 textLayer t; barLayer t])
  /\ (forall s b, extractBase64FromDataUrl (Some s) = Ok (Some b) ->
        exists payload, b = FromBase64 payload).
Proof.
  assert (Hs : forall s, thumbnail t = Some s ->
            match extractBase64FromDataUrl (Some s) with
            | Ok (Some b) =>
                match resizeCover lib b artworkSize artworkSize with
                | Ok art =>
                    renderLayers lib t
                    = [{| input := art; left_ := 0; top_ := 0 |};
                       textLayer t; barLayer t]
                | Throw _ => renderLayers lib t = [textLayer t; barLayer t]
                end
            | Ok None | Throw _ =>
                renderLayers lib t = [textLayer t; barLayer t]
            end).
  { intros s Ht. unfold renderLayers, artLayers. rewrite Ht.
    destruct s as [|c s]; [reflexivity|].
    unfold bind.
    match goal with
    | |- context [extractBase64FromDataUrl ?a] =>
        destruct (extractBase64FromDataUrl a) as [[b|]|e]
    end; try reflexivity.
    destruct (resizeCover lib b artworkSize artworkSize); reflexivity. }
  split.
  { intros Ht. unfold renderLayers, artLayers. now rewrite Ht. }
  split; [exact Hs|].
  split.
  { destruct (thumbnail t) as [s|] eqn:Ht.
    - specialize (Hs s eq_refl).
      destruct (extractBase64FromDataUrl (Some s)) as [[b|]|e] eqn:E;
        [|now left|now left].
      destruct (resizeCover lib b artworkSize artworkSize) as [art|e] eqn:R;
        [|now left].
      right. exists s, b, art. auto.
    - left. unfold renderLayers, artLayers. now rewrite Ht. }
  intros s b E. unfold extractBase64FromDataUrl in E.
  destruct s as [|c s]; [discriminate E|].
  match type of E with
  | context [startsWith ?p ?q] => destruct (startsWith p q)
  end.
  - match type of E with
    | context [nth_error ?l 1] => destruct (nth_error l 1) as [p|]
    end; [|discriminate E].
    injection E as <-. now eexists.
  - injection E as <-. now eexists.
Qed.

Lemma render_layer_order_witness :
  let t := withThumbnail midnightCity
             (Some (lit "data:image/png;base64,iVBORw0KGgo=")) in
  renderLayers recordingRaster t
  = [{| input := Bytes ([10; 100; 100; 2] ++ lit "iVBORw0KGgo=")%N;
        left_ := 0; top_ := 0 |};
     textLayer t; barLayer t].
Proof.
  cbv zeta.
  exact (proj1 (proj2 (render_layer_order recordingRaster
                         (withThumbnail midnightCity
                            (Some (lit "data:image/png;base64,iVBORw0KGgo=")))))
           _ eq_refl).
Defined.

(** X15. The idle picture and the fallback picture never involve the artwork
    decoder, and neither does the picture of a track without thumbnail:
    two raster libraries that differ only in how they decode artwork give
    the same results. *)
Theorem idle_and_fallback_never_decode (a b : Raster) (t : TrackInfo)
  (pos : option jstr) :
  sameButDecoding a b ->
  createBlank a pos = createBlank b pos
  /\ createFallback a pos = createFallback b pos
  /\ render a None pos = render b None pos
  /\ (thumbnail t = None \/ thumbnail t = Some [] ->
      render a (Some t) pos = render b (Some t) pos).
Proof.
  intros [Hc [He [Hp Hb]]].
  assert (C : forall ls p, cropToDataUrl a ls p = cropToDataUrl b ls p).
  { intros ls p. unfold cropToDataUrl, bind. rewrite Hc.
    destruct (composite b fullWidth lcdHeight ls) as [full|]; [|reflexivity].
    rewrite He.
    destruct (extract b full (cropRegion p)) as [slice|]; [|reflexivity].
    now rewrite Hb. }
  assert (F : forall p, createFallback a p = createFallback b p).
  { intros p. unfold createFallback, bind. rewrite Hp.
    destruct (toPng b _) as [png|]; [|reflexivity]. now rewrite Hb. }
  split.
  { unfold createBlank, tryCatch, bind. rewrite C, Hp.
    destruct (cropToDataUrl b blankLayers (positionArg pos)); [reflexivity|].
    destruct (toPng b (FromText blackSvg)) as [png|]; [|reflexivity].
    now rewrite Hb. }
  split; [apply F|].
  split; [unfold render, renderBody, tryCatch; now rewrite F|].
  intros Ht. unfold render, renderBody, tryCatch.
  assert (L : renderLayers a t = renderLayers b t).
  { unfold renderLayers, artLayers. destruct Ht as [-> | ->]; reflexivity. }
  now rewrite L, C, F.
Qed.

Lemma idle_and_fallback_never_decode_witness :
  createBlank recordingRaster (Some (lit "left"))
  = createBlank undecodingRaster (Some (lit "left"))
  /\ render recordingRaster (Some midnightCity) (Some (lit "right"))
     = render undecodingRaster (Some midnightCity) (Some (lit "right")).
Proof.
  assert (H : sameButDecoding recordingRaster undecodingRaster).
  { repeat split. }
  split.
  - exact (proj1 (idle_and_fallback_never_decode recordingRaster
                    undecodingRaster midnightCity (Some (lit "left")) H)).
  - destruct (idle_and_fallback_never_decode recordingRaster
                undecodingRaster midnightCity (Some (lit "right")) H)
      as [_ [_ [_ R]]].
    apply R. left. reflexivity.
Defined.

(** X16. [render] raises exactly when both its pipeline and the encoding of the
    fallback picture raise, and then with the exception of the latter;
    [createBlank] raises exactly when both its pipeline and the encoding of
    the plain black picture raise. *)
Theorem entry_points_raise_exactly (lib : Raster) (t : option TrackInfo)
  (pos : option jstr) (e : exn) :
  (render lib t pos = Throw e
   <-> (exists e0, renderBody lib t (positionArg pos) = Throw e0)
       /\ toPng lib (FromText (fallbackSvg (positionArg pos))) = Throw e)
  /\ (createBlank lib pos = Throw e
      <-> (exists e0,
             cropToDataUrl lib blankLayers (positionArg pos) = Throw e0)
          /\ toPng lib (FromText blackSvg) = Throw e).
Proof.
  split.
  - unfold render, tryCatch, createFallback, bind, positionArg.
    destruct pos as [p|];
      (destruct (renderBody lib t _) as [v|e0];
       [split; [discriminate | intros [[e1 H] _]; discriminate H]|];
       destruct (toPng lib _) as [png|e1];
       [split; [discriminate | intros [_ H]; discriminate H]|];
       split; [intros H; injection H as ->; split; [now eexists | reflexivity]
              | intros [_ H]; injection H as ->; reflexivity]).
  - unfold createBlank, tryCatch, bind.
    destruct (cropToDataUrl lib blankLayers _) as [v|e0];
      [split; [discriminate | intros [[e1 H] _]; discriminate H]|].
    destruct (toPng lib _) as [png|e1];
      [split; [discriminate | intros [_ H]; discriminate H]|].
    split; [intros H; injection H as ->; split; [now eexists | reflexivity]
           | intros [_ H]; injection H as ->; reflexivity].
Qed.

(** ** plugin.js: how the display is driven *)

Ltac data_url_goal :=
  match goal with
  | H : render _ _ _ = Ok ?j |- startsWith _ ?j = true =>
      apply render_is_dataUrl in H; destruct H as [? ->];
      apply startsWith_app
  | H : createFallback _ _ = Ok ?j |- startsWith _ ?j = true =>
      apply createFallback_is_dataUrl in H; destruct H as [? ->];
      apply startsWith_app
  | H : createBlank _ _ = Ok ?j |- startsWith _ ?j = true =>
      apply createBlank_is_dataUrl in H; destruct H as [? ->];
      apply startsWith_app
  end.

Section PluginFacts.

Variable lib : Raster.
Variable env : host.

(** Runs a body of calls, splitting on every answer of the host and of the
    renderer. *)
Ltac run_calls :=
  unfold andThen, attempt, perform, fromRenderer, ret; simpl;
  repeat match goal with
         | |- context [match ?o with Ok _ => _ | Throw _ => _ end] =>
             destruct o eqn:?; simpl
         | |- context [if env ?h ?c then _ else _] =>
             destruct (env h c) eqn:?; simpl
         end.

Ltac run_calls_quietly Hlog :=
  unfold andThen, attempt, perform, fromRenderer, ret; simpl;
  repeat (repeat rewrite Hlog; simpl;
          match goal with
          | |- context [match ?o with Ok _ => _ | Throw _ => _ end] =>
              destruct o eqn:?; simpl
          | |- context [if env ?h ?c then _ else _] =>
              destruct (env h c) eqn:?; simpl
          end);
  repeat rewrite Hlog; simpl.

(** X17. The LCD update never raises, whatever the renderer and the device do,
    as long as writing the log does not raise: a failure of the picture or
    of the device is logged and the handler returns. *)
Theorem updateLCDAction_never_raises (action : N) (position : option jstr)
  (w : World) :
  logsQuietly env ->
  exists w', updateLCDAction lib env action position w = Returned tt w'.
Proof.
  intros Hlog. unfold logsQuietly in Hlog. unfold updateLCDAction.
  destruct (playing (currentTrackInfo w)) as [e|];
    run_calls_quietly Hlog; eexists; reflexivity.
Qed.

(** X18. An LCD update calls the device at most twice, only through
    [setFeedback] on the action it was given, and only with a
    data:image/png;base64 URL; everything else it does is writing the
    log. *)
Theorem lcd_feedback_is_data_url (action : N) (position : option jstr)
  (w : World) :
  exists new,
    history (worldOf (updateLCDAction lib env action position w))
    = history w ++ new
    /\ (forall c, In c new ->
          c = Log
          \/ exists image,
               c = SetFeedback action image
               /\ startsWith (lit "data:image/png;base64,") image = true)
    /\ (List.length (filter isFeedback new) <= 2)%nat.
Proof.
  remember (startsWith (lit "data:image/png;base64,")) as isUrl eqn:EU.
  unfold updateLCDAction.
  destruct (playing (currentTrackInfo w)) as [e|]; run_calls;
    rewrite <- ?app_assoc; simpl;
    (eexists; split; [reflexivity|]);
    (split; [|simpl; lia]);
    intros c Hin; simpl in Hin;
    repeat (destruct Hin as [Hin|Hin];
            [subst c;
             first [now left
                   | right; eexists; split;
                     [reflexivity | rewrite EU; data_url_goal]]
            |]);
    contradiction.
Qed.

(** X19. While nothing is playing the LCD shows the idle picture whatever the
    last track was: two states in which nothing plays make the same calls,
    even if one of them still holds a paused track. *)
Theorem idle_display_ignores_track (action : N) (position : option jstr)
  (w1 w2 : World) :
  playing (currentTrackInfo w1) = None ->
  playing (currentTrackInfo w2) = None ->
  history w1 = history w2 ->
  history (worldOf (updateLCDAction lib env action position w1))
  = history (worldOf (updateLCDAction lib env action position w2))
  /\ forall c, In c (callsSince w1 (worldOf (updateLCDAction lib env action
                                               position w1))) ->
               c = Log
               \/ exists image,
                    createBlank lib (Some (positionArg position)) = Ok image
                    /\ c = SetFeedback action image.
Proof.
  intros H1 H2 Hh. unfold updateLCDAction, callsSince. rewrite H1, H2.
  unfold andThen, attempt, perform, fromRenderer, ret.
  destruct (createBlank lib (Some (positionArg position))) as [img|e];
    simpl; rewrite <- Hh.
  - destruct (env (history w1) (SetFeedback action img)); simpl;
      rewrite <- ?Hh; [destruct (env _ Log)|]; simpl;
      (split; [reflexivity|]);
      rewrite <- ?app_assoc, skipn_app, skipn_all, Nat.sub_diag; simpl;
      intros c Hin;
      repeat (destruct Hin as [Hin|Hin];
              [subst c; first [now left | right; now eexists]|]);
      contradiction.
  - destruct (env (history w1) Log); simpl; (split; [reflexivity|]);
      rewrite skipn_app, skipn_all, Nat.sub_diag; simpl;
      intros c [<-|[]]; now left.
Qed.

End PluginFacts.

Lemma updateLCDAction_never_raises_witness :
  exists w',
    updateLCDAction failingRaster deafDeviceHost 2 (Some (lit "left"))
      (playingWorld midnightCity)
    = Returned tt w'.
Proof.
  apply updateLCDAction_never_raises. intros h. reflexivity.
Defined.

Lemma idle_display_ignores_track_witness :
  history (worldOf (updateLCDAction recordingRaster quietHost 2 None
                      freshWorld))
  = history (worldOf (updateLCDAction recordingRaster quietHost 2 None
                        (withHistory
                           {| nowPlayingInstance := true;
                              currentTrackInfo :=
                                Some {| track := midnightCity;
                                        isPlaying := false |};
                              keypadContexts := [];
                              lcdContexts := [2%N];
                              positionOf := fun _ => None;
                              history := [] |} []))).
Proof.
  apply (idle_display_ignores_track recordingRaster quietHost 2 None);
    reflexivity.
Defined.

(** ** plugin.js: updating the keys and the LCDs *)

Lemma onlyCalls_refl (P : call -> Prop) (w : World) : onlyCalls P w w.
Proof. exists []. split; [unfold continues; now rewrite app_nil_r | constructor]. Qed.

Lemma onlyCalls_trans (P : call -> Prop) (w1 w2 w3 : World) :
  onlyCalls P w1 w2 -> onlyCalls P w2 w3 -> onlyCalls P w1 w3.
Proof.
  intros [n1 [H1 F1]] [n2 [H2 F2]]. exists (n1 ++ n2). unfold continues in *.
  split; [now rewrite H2, H1, app_assoc | now apply Forall_app].
Qed.

Lemma onlyCalls_weaken (P Q : call -> Prop) (w w' : World) :
  (forall c, P c -> Q c) -> onlyCalls P w w' -> onlyCalls Q w w'.
Proof.
  intros H [n [Hn F]]. exists n. split; [exact Hn|].
  eapply Forall_impl; [exact H | exact F].
Qed.

Lemma called_then (c : call) (P : call -> Prop) (w1 w2 w3 : World) :
  called c w1 w2 -> onlyCalls P w2 w3 -> called c w1 w3.
Proof.
  intros [n1 [H1 I1]] [n2 [H2 _]]. exists (n1 ++ n2). unfold continues in *.
  split; [now rewrite H2, H1, app_assoc | apply in_or_app; now left].
Qed.

Lemma called_after (c : call) (P : call -> Prop) (w1 w2 w3 : World) :
  onlyCalls P w1 w2 -> called c w2 w3 -> called c w1 w3.
Proof.
  intros [n1 [H1 _]] [n2 [H2 I2]]. exists (n1 ++ n2). unfold continues in *.
  split; [now rewrite H2, H1, app_assoc | apply in_or_app; now right].
Qed.

Lemma called_callsSince (c : call) (w w' : World) :
  called c w w' -> In c (callsSince w w').
Proof.
  intros [n [H I]]. unfold callsSince, continues in *.
  now rewrite H, skipn_app, skipn_all, Nat.sub_diag.
Qed.

Section UpdateFacts.

Variable lib : Raster.
Variable env : host.

Ltac run_calls :=
  unfold andThen, attempt, perform, fromRenderer, ret; simpl;
  repeat match goal with
         | |- context [match ?o with Ok _ => _ | Throw _ => _ end] =>
             destruct o eqn:?; simpl
         | |- context [if env ?h ?c then _ else _] =>
             destruct (env h c) eqn:?; simpl
         end.

Ltac run_calls_quietly Hlog :=
  unfold andThen, attempt, perform, fromRenderer, ret; simpl;
  repeat (repeat rewrite Hlog; simpl;
          match goal with
          | |- context [match ?o with Ok _ => _ | Throw _ => _ end] =>
              destruct o eqn:?; simpl
          | |- context [if env ?h ?c then _ else _] =>
              destruct (env h c) eqn:?; simpl
          end);
  repeat rewrite Hlog; simpl.

Ltac list_of_calls :=
  unfold onlyCalls, continues; simpl; rewrite <- ?app_assoc; simpl;
  eexists; split; [reflexivity | repeat constructor].

Lemma perform_Log_returns : logsQuietly env -> alwaysReturns (perform env Log).
Proof.
  intros Hlog w. unfold perform. rewrite Hlog. now eexists.
Qed.

Lemma andThen_returns (m : Act unit) (k : unit -> Act unit) :
  alwaysReturns m -> alwaysReturns (k tt) -> alwaysReturns (andThen m k).
Proof.
  intros Hm Hk w. unfold andThen. destruct (Hm w) as [w1 ->]. apply Hk.
Qed.

Lemma attempt_returns (m handler : Act unit) :
  alwaysReturns handler -> alwaysReturns (attempt m handler).
Proof.
  intros Hh w. unfold attempt. destruct (m w) as [[] w1|x w1].
  - now eexists.
  - apply Hh.
Qed.

Lemma forEach_returns (s : list N) (body : N -> Act unit) :
  (forall a, alwaysReturns (body a)) -> alwaysReturns (forEach s body).
Proof.
  intros Hb. induction s as [|a s IH].
  - intros w. now eexists.
  - simpl. apply andThen_returns; [apply Hb | exact IH].
Qed.

(** X20. The key update returns (rather than raises) when nothing is playing,
    when the track has no thumbnail, or when setting the default icon
    never raises; writing the log is assumed not to raise. *)
Theorem updateKeypadAction_returns (action : N) (w : World) :
  logsQuietly env ->
  playing (currentTrackInfo w) = None
  \/ (exists e, playing (currentTrackInfo w) = Some e
                /\ truthy (thumbnail (track e)) = false)
  \/ (forall h, env h (SetImage action defaultIcon) = false) ->
  exists w', updateKeypadAction env action w = Returned tt w'.
Proof.
  intros Hlog H. unfold logsQuietly in Hlog. unfold updateKeypadAction.
  destruct (playing (currentTrackInfo w)) as [e|] eqn:P.
  - destruct H as [H | [[e' [E T]] | H]]; [discriminate H | |].
    + injection E as <-.
      destruct (thumbnail (track e)) as [[|c s]|]; try discriminate T;
        run_calls_quietly Hlog; now eexists.
    + destruct (thumbnail (track e)) as [[|c s]|];
        run_calls_quietly Hlog; try (now eexists); exfalso;
        match goal with
        | Hb : env ?h (SetImage _ _) = true |- _ =>
            pose proof (eq_trans (eq_sym Hb) (H h)) as X; discriminate X
        end.
  - run_calls_quietly Hlog; now eexists.
Qed.

(** X21. When the track has a thumbnail and the device refuses every image,
    the key update raises: the fallback to the default icon in the catch
    block is not guarded. *)
Theorem updateKeypadAction_raises (action : N) (w : World)
  (e : NowPlayingEvent) (c : cu) (s : jstr) :
  logsQuietly env ->
  playing (currentTrackInfo w) = Some e ->
  thumbnail (track e) = Some (c :: s) ->
  (forall h image, env h (SetImage action image) = true) ->
  exists w',
    updateKeypadAction env action w
    = Raised (HostThrew (SetImage action defaultIcon)) w'.
Proof.
  intros Hlog P T H. unfold logsQuietly in Hlog.
  unfold updateKeypadAction. rewrite P. cbv zeta. rewrite T.
  run_calls_quietly Hlog; try (now eexists); exfalso;
    match goal with
    | Hb : env ?h (SetImage _ ?i) = false |- _ =>
        pose proof (eq_trans (eq_sym Hb) (H h i)) as X; discriminate X
    end.
Qed.

(** The key update only writes the log and calls the device. *)
Lemma updateKeypadAction_calls (action : N) (w : World) :
  onlyCalls isDisplayCall w (worldOf (updateKeypadAction env action w))
  /\ sameRegistrations w (worldOf (updateKeypadAction env action w))
  /\ nowPlayingInstance (worldOf (updateKeypadAction env action w))
     = nowPlayingInstance w.
Proof.
  unfold updateKeypadAction.
  destruct (playing (currentTrackInfo w)) as [e|];
    [destruct (thumbnail (track e)) as [[|c s]|]|];
    run_calls; (split; [list_of_calls | repeat split]).
Qed.

Lemma updateLCDAction_calls (action : N) (position : option jstr)
  (w : World) :
  onlyCalls isDisplayCall w
    (worldOf (updateLCDAction lib env action position w))
  /\ sameRegistrations w
       (worldOf (updateLCDAction lib env action position w))
  /\ nowPlayingInstance
       (worldOf (updateLCDAction lib env action position w))
     = nowPlayingInstance w.
Proof.
  unfold updateLCDAction.
  destruct (playing (currentTrackInfo w)) as [e|];
    run_calls; (split; [list_of_calls | repeat split]).
Qed.

(** Whatever is playing, the key update asks the device to set the title
    of its key. *)
Lemma updateKeypadAction_sets_title (action : N) (w : World) :
  logsQuietly env ->
  exists title,
    called (SetTitle action title) w
      (worldOf (updateKeypadAction env action w)).
Proof.
  intros Hlog. unfold logsQuietly in Hlog. unfold updateKeypadAction.
  destruct (playing (currentTrackInfo w)) as [e|];
    [destruct (thumbnail (track e)) as [[|c s]|]|];
    run_calls_quietly Hlog;
    eexists; unfold called, continues; simpl; rewrite <- ?app_assoc; simpl;
    eexists; (split; [reflexivity|]); simpl; auto 6.
Qed.

(** X22. Updating all actions never raises, whatever the device and the
    renderer do, as long as writing the log does not raise: the failure of
    one action is logged and the others are still updated. *)
Theorem updateAllActions_never_raises :
  logsQuietly env -> alwaysReturns (updateAllActions lib env).
Proof.
  intros Hlog w. unfold updateAllActions.
  pose proof (perform_Log_returns Hlog) as L.
  repeat (apply andThen_returns; [exact L|]).
  apply andThen_returns.
  - apply forEach_returns. intros a.
    apply andThen_returns; [exact L|]. now apply attempt_returns.
  - apply andThen_returns; [|exact L].
    apply forEach_returns. intros a.
    apply andThen_returns; [exact L|]. now apply attempt_returns.
Qed.

End UpdateFacts.

Lemma updateKeypadAction_returns_witness :
  exists w',
    updateKeypadAction deafDeviceHost 1 (playingWorld midnightCity)
    = Returned tt w'.
Proof.
  apply updateKeypadAction_returns; [intros h; reflexivity|].
  right. left. eexists. split; reflexivity.
Defined.

Lemma updateKeypadAction_raises_witness :
  exists w',
    updateKeypadAction deafDeviceHost 1
      (playingWorld (withThumbnail midnightCity
                       (Some (lit "data:image/png;base64,iVBORw0KGgo="))))
    = Raised (HostThrew (SetImage 1 defaultIcon)) w'.
Proof.
  eapply updateKeypadAction_raises;
    [intros h; reflexivity | reflexivity | reflexivity
     | intros h image; reflexivity].
Defined.

Lemma updateAllActions_never_raises_witness :
  alwaysReturns (updateAllActions failingRaster deafDeviceHost).
Proof.
  apply updateAllActions_never_raises. intros h. reflexivity.
Defined.

(** *** Relations kept by every step *)

Section Keeps.

Variable R : World -> World -> Prop.
Hypothesis R_refl : forall w, R w w.
Hypothesis R_trans : forall w1 w2 w3, R w1 w2 -> R w2 w3 -> R w1 w3.

Lemma andThen_keeps {A B} (m : Act A) (k : A -> Act B) :
  (forall w, R w (worldOf (m w))) ->
  (forall a w, R w (worldOf (k a w))) ->
  forall w, R w (worldOf (andThen m k w)).
Proof.
  intros Hm Hk w. unfold andThen. specialize (Hm w).
  destruct (m w) as [a w1|x w1]; simpl in *; [|exact Hm].
  eapply R_trans; [exact Hm | apply Hk].
Qed.

Lemma attempt_keeps {A} (m handler : Act A) :
  (forall w, R w (worldOf (m w))) ->
  (forall w, R w (worldOf (handler w))) ->
  forall w, R w (worldOf (attempt m handler w)).
Proof.
  intros Hm Hh w. unfold attempt. specialize (Hm w).
  destruct (m w) as [a w1|x w1]; simpl in *; [exact Hm|].
  eapply R_trans; [exact Hm | apply Hh].
Qed.

Lemma forEach_keeps (s : list N) (body : N -> Act unit) :
  (forall a w, R w (worldOf (body a w))) ->
  forall w, R w (worldOf (forEach s body w)).
Proof.
  intros Hb. induction s as [|a s IH]; intros w.
  - apply R_refl.
  - simpl. apply andThen_keeps; [apply Hb | intros _; exact IH].
Qed.

End Keeps.


Lemma onlyCalls_any (P : call -> Prop) (w w' : World) :
  onlyCalls P w w' -> onlyCalls anyCall w w'.
Proof. apply onlyCalls_weaken. intros c _. exact I. Qed.

Lemma existsb_eqb_In (a : N) (s : list N) :
  existsb (N.eqb a) s = true <-> In a s.
Proof.
  rewrite existsb_exists. split.
  - intros [x [Hx E]]. apply N.eqb_eq in E. now subst.
  - intros H. exists a. split; [exact H | apply N.eqb_refl].
Qed.

Lemma setAdd_In (a : N) (s : list N) : In a (setAdd a s).
Proof.
  unfold setAdd. destruct (existsb (N.eqb a) s) eqn:E.
  - now apply existsb_eqb_In.
  - apply in_or_app. right. now left.
Qed.

Lemma setAdd_NoDup (a : N) (s : list N) : NoDup s -> NoDup (setAdd a s).
Proof.
  intros H. unfold setAdd. destruct (existsb (N.eqb a) s) eqn:E; [exact H|].
  assert (Hn : ~ In a s).
  { intros Hin. apply existsb_eqb_In in Hin. congruence. }
  clear E. induction H as [|x s Hx Hs IH]; simpl.
  - constructor; [intros []|constructor].
  - constructor.
    + intros Hin. apply in_app_or in Hin as [Hin | [<- | []]].
      * contradiction.
      * apply Hn. now left.
    + apply IH. intros Hin. apply Hn. now right.
Qed.

Lemma setDelete_not_In (a : N) (s : list N) : ~ In a (setDelete a s).
Proof.
  unfold setDelete. intros H. apply filter_In in H as [_ H].
  rewrite N.eqb_refl in H. discriminate H.
Qed.

Lemma setDelete_keeps (a b : N) (s : list N) :
  b <> a -> In b s -> In b (setDelete a s).
Proof.
  intros Hb H. unfold setDelete. apply filter_In. split; [exact H|].
  apply negb_true_iff. now apply N.eqb_neq.
Qed.

(** ** plugin.js: events and handlers *)

Section HandlerFacts.

Variable lib : Raster.
Variable env : host.

Ltac run_calls :=
  unfold andThen, attempt, perform, fromRenderer, ret; simpl;
  repeat match goal with
         | |- context [match ?o with Ok _ => _ | Throw _ => _ end] =>
             destruct o eqn:?; simpl
         | |- context [if env ?h ?c then _ else _] =>
             destruct (env h c) eqn:?; simpl
         end.

Ltac list_of_calls :=
  unfold onlyCalls, continues; simpl; rewrite <- ?app_assoc; simpl;
  eexists; split; [reflexivity | repeat constructor].

Lemma perform_calls (P : call -> Prop) (c : call) (w : World) :
  P c -> onlyCalls P w (worldOf (perform env c w)).
Proof.
  intros H. unfold perform. destruct (env (history w) c); simpl;
    (exists [c]; split; [reflexivity | now constructor]).
Qed.

Lemma keypad_step_calls (action : N) (w : World) :
  onlyCalls anyCall w
    (worldOf ((andThen (perform env Log)
                 (fun _ => attempt
                             (andThen (updateKeypadAction env action)
                                (fun _ => perform env Log))
                             (perform env Log))) w)).
Proof.
  revert w. apply andThen_keeps.
  - apply onlyCalls_trans.
  - intros w. now apply perform_calls.
  - intros _. apply attempt_keeps.
    + apply onlyCalls_trans.
    + apply andThen_keeps.
      * apply onlyCalls_trans.
      * intros w. eapply onlyCalls_any.
        apply (updateKeypadAction_calls env action w).
      * intros _ w. now apply perform_calls.
    + intros w. now apply perform_calls.
Qed.

Lemma lcd_step_calls (action : N) (w : World) :
  onlyCalls anyCall w
    (worldOf ((andThen (perform env Log)
                 (fun _ => attempt
                             (andThen
                                (fun w' => updateLCDAction lib env action
                                             (Some (storedPosition action w'))
                                             w')
                                (fun _ => perform env Log))
                             (perform env Log))) w)).
Proof.
  revert w. apply andThen_keeps.
  - apply onlyCalls_trans.
  - intros w. now apply perform_calls.
  - intros _. apply attempt_keeps.
    + apply onlyCalls_trans.
    + apply andThen_keeps.
      * apply onlyCalls_trans.
      * intros w. eapply onlyCalls_any.
        apply (updateLCDAction_calls lib env action _ w).
      * intros _ w. now apply perform_calls.
    + intros w. now apply perform_calls.
Qed.

Lemma keypad_step_sets_title (action : N) (w : World) :
  logsQuietly env ->
  exists title,
    called (SetTitle action title) w
      (worldOf ((andThen (perform env Log)
                   (fun _ => attempt
                               (andThen (updateKeypadAction env action)
                                  (fun _ => perform env Log))
                               (perform env Log))) w)).
Proof.
  intros Hlog. unfold andThen at 1. unfold perform at 1.
  rewrite (Hlog (history w)).
  set (w1 := withHistory w (history w ++ [Log])).
  assert (H01 : onlyCalls anyCall w w1).
  { exists [Log]. split; [reflexivity | repeat constructor]. }
  destruct (updateKeypadAction_sets_title env action w1 Hlog) as [title T].
  exists title. apply (called_after _ anyCall w w1 _ H01).
  unfold attempt, andThen.
  destruct (updateKeypadAction env action w1) as [[] w2|x w2]; simpl in T.
  - unfold perform. rewrite (Hlog (history w2)). simpl.
    eapply (called_then _ anyCall); [exact T|].
    exists [Log]. split; [reflexivity | repeat constructor].
  - unfold perform. rewrite (Hlog (history w2)). simpl.
    eapply (called_then _ anyCall); [exact T|].
    exists [Log]. split; [reflexivity | repeat constructor].
Qed.

Lemma keypad_step_returns (action : N) :
  logsQuietly env ->
  alwaysReturns (andThen (perform env Log)
                   (fun _ => attempt
                               (andThen (updateKeypadAction env action)
                                  (fun _ => perform env Log))
                               (perform env Log))).
Proof.
  intros Hlog. apply andThen_returns; [now apply perform_Log_returns|].
  apply attempt_returns. now apply perform_Log_returns.
Qed.

Lemma keypad_loop_sets_titles (s : list N) (a : N) (w : World) :
  logsQuietly env -> In a s ->
  exists title,
    called (SetTitle a title) w
      (worldOf (forEach s
                  (fun action =>
                     andThen (perform env Log)
                       (fun _ => attempt
                                   (andThen (updateKeypadAction env action)
                                      (fun _ => perform env Log))
                                   (perform env Log))) w)).
Proof.
  intros Hlog. revert w. induction s as [|x s IH]; intros w Hin;
    [contradiction|].
  simpl forEach. unfold andThen at 1.
  destruct (keypad_step_returns x Hlog w) as [w1 E].
  pose proof (keypad_step_calls x w) as C.
  pose proof (keypad_step_sets_title x w Hlog) as [title T].
  rewrite E in *. simpl in C, T.
  destruct (N.eq_dec a x) as [->|Hne].
  - exists title. eapply (called_then _ anyCall); [exact T|].
    apply (forEach_keeps (onlyCalls anyCall)); [apply onlyCalls_refl
      | apply onlyCalls_trans | intros b w'; apply keypad_step_calls].
  - destruct Hin as [->|Hin]; [contradiction|].
    destruct (IH w1 Hin) as [t' T']. exists t'.
    eapply called_after; [exact C | exact T'].
Qed.

(** X23. An event reaches every key: when all actions are updated, the device
    is asked to set the title of every registered key, even if the update
    of another action failed; writing the log is assumed not to raise. *)
Theorem every_key_gets_title (a : N) (w : World) :
  logsQuietly env -> In a (keypadContexts w) ->
  exists title,
    In (SetTitle a title)
       (callsSince w (worldOf (updateAllActions lib env w))).
Proof.
  intros Hlog Hin. unfold updateAllActions.
  unfold andThen at 1 2 3. unfold perform at 1 2 3. simpl.
  repeat rewrite Hlog. simpl. repeat rewrite Hlog. simpl.
  repeat rewrite Hlog. simpl.
  match goal with
  | |- context [andThen _ _ ?w0] => set (w3 := w0)
  end.
  assert (H03 : onlyCalls anyCall w w3).
  { unfold w3. list_of_calls. }
  destruct (keypad_loop_sets_titles (keypadContexts w) a w3 Hlog Hin)
    as [title T].
  exists title. apply called_callsSince.
  apply (called_after _ anyCall w w3 _ H03).
  unfold andThen at 1.
  match type of T with
  | called _ _ (worldOf ?r) => destruct r as [[] w4|x w4]; simpl in T
  end; [|exact T].
  eapply (called_then _ anyCall); [exact T|].
  apply (andThen_keeps (onlyCalls anyCall)); [apply onlyCalls_trans | |].
  - apply (forEach_keeps (onlyCalls anyCall)); [apply onlyCalls_refl
      | apply onlyCalls_trans | intros b w'; apply lcd_step_calls].
  - intros _ w'. now apply perform_calls.
Qed.

End HandlerFacts.

Lemma every_key_gets_title_witness :
  exists title,
    In (SetTitle 1 title)
       (callsSince (playingWorld midnightCity)
          (worldOf (updateAllActions failingRaster deafDeviceHost
                      (playingWorld midnightCity)))).
Proof.
  apply every_key_gets_title; [intros h; reflexivity | now left].
Defined.

Section LifecycleFacts.

Variable lib : Raster.
Variable env : host.

Ltac run_calls :=
  unfold andThen, attempt, perform, fromRenderer, ret; simpl;
  repeat match goal with
         | |- context [match ?o with Ok _ => _ | Throw _ => _ end] =>
             destruct o eqn:?; simpl
         | |- context [if env ?h ?c then _ else _] =>
             destruct (env h c) eqn:?; simpl
         end.

Ltac list_of_calls :=
  unfold onlyCalls, continues; simpl; rewrite <- ?app_assoc; simpl;
  eexists; split; [reflexivity | repeat constructor].

Lemma sameRegistrations_refl (w : World) : sameRegistrations w w.
Proof. repeat split. Qed.

Lemma sameRegistrations_trans (w1 w2 w3 : World) :
  sameRegistrations w1 w2 -> sameRegistrations w2 w3 ->
  sameRegistrations w1 w3.
Proof.
  intros [A [B C]] [A' [B' C']]. repeat split; congruence.
Qed.

Lemma sameTrack_trans (w1 w2 w3 : World) :
  sameTrack w1 w2 -> sameTrack w2 w3 -> sameTrack w1 w3.
Proof. unfold sameTrack. congruence. Qed.

Lemma perform_sameTrack (c : call) (w : World) :
  sameTrack w (worldOf (perform env c w)).
Proof. unfold perform. destruct (env (history w) c); reflexivity. Qed.

Lemma updateKeypadAction_sameTrack (action : N) (w : World) :
  sameTrack w (worldOf (updateKeypadAction env action w)).
Proof.
  unfold updateKeypadAction.
  destruct (playing (currentTrackInfo w)) as [e|];
    [destruct (thumbnail (track e)) as [[|c s]|]|];
    run_calls; reflexivity.
Qed.

Lemma updateLCDAction_sameTrack (action : N) (position : option jstr)
  (w : World) :
  sameTrack w (worldOf (updateLCDAction lib env action position w)).
Proof.
  unfold updateLCDAction.
  destruct (playing (currentTrackInfo w)) as [e|]; run_calls; reflexivity.
Qed.

Lemma updateAllActions_sameTrack (w : World) :
  sameTrack w (worldOf (updateAllActions lib env w)).
Proof.
  unfold updateAllActions.
  repeat (apply (andThen_keeps sameTrack sameTrack_trans);
          [intros w'; apply perform_sameTrack | intros _]).
  apply (andThen_keeps sameTrack sameTrack_trans).
  - apply (forEach_keeps sameTrack); [reflexivity | apply sameTrack_trans|].
    intros a. apply (andThen_keeps sameTrack sameTrack_trans);
      [intros w'; apply perform_sameTrack | intros _].
    apply (attempt_keeps sameTrack sameTrack_trans);
      [|intros w'; apply perform_sameTrack].
    apply (andThen_keeps sameTrack sameTrack_trans);
      [apply updateKeypadAction_sameTrack
      | intros _ w'; apply perform_sameTrack].
  - intros _. apply (andThen_keeps sameTrack sameTrack_trans);
      [|intros _ w'; apply perform_sameTrack].
    apply (forEach_keeps sameTrack); [reflexivity | apply sameTrack_trans|].
    intros a. apply (andThen_keeps sameTrack sameTrack_trans);
      [intros w'; apply perform_sameTrack | intros _].
    apply (attempt_keeps sameTrack sameTrack_trans);
      [|intros w'; apply perform_sameTrack].
    apply (andThen_keeps sameTrack sameTrack_trans);
      [intros w'; apply updateLCDAction_sameTrack
      | intros _ w'; apply perform_sameTrack].
Qed.

(** X24. A media-session event is stored and shown: handling it never raises
    (writing the log is assumed not to raise), and afterwards the current
    track is the event's, whatever happened while the actions were
    updated. *)
Theorem onNowPlayingEvent_stores_event (event : NowPlayingEvent) (w : World) :
  logsQuietly env ->
  exists w',
    onNowPlayingEvent lib env event w = Returned tt w'
    /\ currentTrackInfo w' = Some event.
Proof.
  intros Hlog.
  pose proof (perform_Log_returns env Hlog) as L.
  assert (R : alwaysReturns (onNowPlayingEvent lib env event)).
  { unfold onNowPlayingEvent.
    repeat (apply andThen_returns; [exact L|]).
    apply andThen_returns.
    { destruct (truthy (thumbnail (track event)));
        [now apply andThen_returns | intros w0; now eexists]. }
    repeat (apply andThen_returns; [exact L|]).
    apply andThen_returns; [intros w0; now eexists|].
    now apply attempt_returns. }
  destruct (R w) as [w' E]. exists w'. split; [exact E|].
  assert (K : forall w0,
             currentTrackInfo (worldOf (onNowPlayingEvent lib env event w0))
             = Some event
             \/ exists x w1, onNowPlayingEvent lib env event w0 = Raised x w1).
  { intros w0. unfold onNowPlayingEvent.
    unfold andThen, perform, setCurrentTrackInfo. simpl.
    repeat rewrite Hlog. simpl.
    destruct (truthy (thumbnail (track event))); simpl;
      repeat rewrite Hlog; simpl; left;
      match goal with
      | |- currentTrackInfo (worldOf (attempt _ _ ?w2)) = _ =>
          pose proof (attempt_keeps sameTrack sameTrack_trans
                        (updateAllActions lib env) (perform env Log)
                        updateAllActions_sameTrack
                        (perform_sameTrack Log) w2) as S;
          exact S
      end. }
  destruct (K w) as [H | [x [w1 H]]].
  - rewrite E in H. exact H.
  - rewrite E in H. discriminate H.
Qed.

End LifecycleFacts.

Lemma onNowPlayingEvent_stores_event_witness :
  exists w',
    onNowPlayingEvent failingRaster deafDeviceHost
      {| track := midnightCity; isPlaying := true |}
      (playingWorld (withThumbnail midnightCity (Some (lit "old"))))
    = Returned tt w'
    /\ currentTrackInfo w'
       = Some {| track := midnightCity; isPlaying := true |}.
Proof.
  apply onNowPlayingEvent_stores_event. intros h. reflexivity.
Defined.

(** ** plugin.js: the media session and the registered actions *)

Lemma continues_unique (w w' : World) (n1 n2 : list call) :
  continues w w' n1 -> continues w w' n2 -> n1 = n2.
Proof.
  unfold continues. intros H1 H2. rewrite H1 in H2.
  now apply app_inv_head in H2.
Qed.

Lemma not_called_without_calls (c : call) (w : World) : ~ called c w w.
Proof.
  intros [n [H I]].
  assert (E : n = []).
  { symmetry. apply (continues_unique w w [] n); [|exact H].
    unfold continues. now rewrite app_nil_r. }
  subst n. contradiction.
Qed.

Section SessionFacts.

Variable lib : Raster.
Variable env : host.

Ltac run_calls :=
  unfold andThen, attempt, perform, fromRenderer, ret; simpl;
  repeat match goal with
         | |- context [match ?o with Ok _ => _ | Throw _ => _ end] =>
             destruct o eqn:?; simpl
         | |- context [if env ?h ?c then _ else _] =>
             destruct (env h c) eqn:?; simpl
         end.

Ltac list_of_calls :=
  unfold onlyCalls, continues; simpl; rewrite <- ?app_assoc; simpl;
  eexists; split; [reflexivity | repeat constructor].

Lemma initializeNowPlaying_registrations (w : World) :
  sameRegistrations w (worldOf (initializeNowPlaying env w)).
Proof.
  unfold initializeNowPlaying.
  destruct (nowPlayingInstance w); [repeat split|].
  unfold setInstance. run_calls; repeat split.
Qed.

(** X25. The instance is set exactly when constructing the media session
    returned, whether subscribing then succeeded or raised: a failure to
    subscribe is logged and leaves the instance set. Writing the log is
    assumed not to raise. *)
Theorem initialize_sets_instance (w : World) :
  logsQuietly env -> nowPlayingInstance w = false ->
  exists w',
    initializeNowPlaying env w = Returned tt w'
    /\ nowPlayingInstance w' = negb (env (history w) NewNowPlaying)
    /\ (env (history w) NewNowPlaying = false -> called Subscribe w w').
Proof.
  intros Hlog Hi. unfold logsQuietly in Hlog.
  unfold initializeNowPlaying, setInstance. rewrite Hi.
  unfold andThen, attempt, perform. simpl.
  destruct (env (history w) NewNowPlaying) eqn:EN; simpl.
  - rewrite Hlog. eexists. split; [reflexivity|]. split; [exact Hi|].
    discriminate.
  - destruct (env (history w ++ [NewNowPlaying]) Subscribe) eqn:ES; simpl;
      repeat rewrite Hlog; simpl;
      (eexists; split; [reflexivity|]); (split; [reflexivity|]);
      intros _; unfold called, continues; simpl; rewrite <- ?app_assoc;
      simpl; eexists; (split; [reflexivity|]); simpl; auto.
Qed.

(** X26. While an instance is set, an action that appears never constructs the
    media session or subscribes again, also when the first subscription
    had failed: it only writes the log and calls the device. *)
Theorem session_not_set_up_twice (action : N) (settingsPosition : option jstr)
  (w : World) :
  nowPlayingInstance w = true ->
  onlyCalls isDisplayCall w (worldOf (keypadOnWillAppear env action w))
  /\ onlyCalls isDisplayCall w
       (worldOf (lcdOnWillAppear lib env action settingsPosition w)).
Proof.
  intros Hi. split.
  - unfold keypadOnWillAppear, andThen, perform, setKeypadContexts,
      initializeNowPlaying, withHistory.
    destruct (env (history w) Log);
      cbn [nowPlayingInstance currentTrackInfo keypadContexts lcdContexts
             positionOf history];
      [list_of_calls|].
    rewrite Hi. cbv iota beta.
    eapply onlyCalls_trans; [|apply updateKeypadAction_calls].
    list_of_calls.
  - unfold lcdOnWillAppear, andThen, perform, setLcdContexts, setPosition,
      initializeNowPlaying, withHistory.
    destruct (env (history w) Log);
      cbn [nowPlayingInstance currentTrackInfo keypadContexts lcdContexts
             positionOf history worldOf];
      [list_of_calls|].
    destruct (env (history w ++ [Log]) Log);
      cbn [nowPlayingInstance currentTrackInfo keypadContexts lcdContexts
             positionOf history worldOf];
      [list_of_calls|].
    rewrite Hi. cbv iota beta.
    eapply onlyCalls_trans; [|apply updateLCDAction_calls].
    list_of_calls.
Qed.

(** X27. An action that appears is registered, once: the keypad set holds it
    afterwards, without duplicate, and the LCD set is untouched; an LCD
    action is registered likewise, and its stored position is the one of
    its settings, "left" when the settings give none. Writing the log is
    assumed not to raise. *)
Theorem appearing_registers (action : N) (settingsPosition : option jstr)
  (w : World) :
  logsQuietly env ->
  (keypadContexts (worldOf (keypadOnWillAppear env action w))
   = setAdd action (keypadContexts w)
   /\ In action (keypadContexts (worldOf (keypadOnWillAppear env action w)))
   /\ (NoDup (keypadContexts w) ->
       NoDup (keypadContexts (worldOf (keypadOnWillAppear env action w))))
   /\ lcdContexts (worldOf (keypadOnWillAppear env action w))
      = lcdContexts w)
  /\ (lcdContexts (worldOf (lcdOnWillAppear lib env action settingsPosition w))
      = setAdd action (lcdContexts w)
      /\ In action
           (lcdContexts
              (worldOf (lcdOnWillAppear lib env action settingsPosition w)))
      /\ keypadContexts
           (worldOf (lcdOnWillAppear lib env action settingsPosition w))
         = keypadContexts w
      /\ storedPosition action
           (worldOf (lcdOnWillAppear lib env action settingsPosition w))
         = orDefault settingsPosition (lit "left")).
Proof.
  intros Hlog. unfold logsQuietly in Hlog. split.
  - assert (K : sameRegistrations
                  {| nowPlayingInstance := nowPlayingInstance w;
                     currentTrackInfo := currentTrackInfo w;
                     keypadContexts := setAdd action (keypadContexts w);
                     lcdContexts := lcdContexts w;
                     positionOf := positionOf w;
                     history := history w ++ [Log] |}
                  (worldOf (keypadOnWillAppear env action w))).
    { unfold keypadOnWillAppear, andThen at 1 2, perform at 1,
        setKeypadContexts.
      rewrite Hlog. cbn [history withHistory nowPlayingInstance
                           currentTrackInfo keypadContexts lcdContexts
                           positionOf].
      apply (andThen_keeps sameRegistrations sameRegistrations_trans).
      - apply initializeNowPlaying_registrations.
      - intros _ w'. apply updateKeypadAction_calls. }
    destruct K as [Kk [Kl _]]. simpl in Kk, Kl.
    rewrite Kk, Kl. repeat split.
    + apply setAdd_In.
    + apply setAdd_NoDup.
  - assert (K : sameRegistrations
                  {| nowPlayingInstance := nowPlayingInstance w;
                     currentTrackInfo := currentTrackInfo w;
                     keypadContexts := keypadContexts w;
                     lcdContexts := setAdd action (lcdContexts w);
                     positionOf :=
                       fun a => if N.eqb a action
                                then Some (orDefault settingsPosition
                                             (lit "left"))
                                else positionOf w a;
                     history := (history w ++ [Log]) ++ [Log] |}
                  (worldOf (lcdOnWillAppear lib env action settingsPosition
                              w))).
    { unfold lcdOnWillAppear, andThen at 1 2 3 4, perform at 1 2,
        setLcdContexts, setPosition.
      rewrite Hlog. cbn [history withHistory nowPlayingInstance
                           currentTrackInfo keypadContexts lcdContexts
                           positionOf].
      rewrite Hlog. cbn [history withHistory nowPlayingInstance
                           currentTrackInfo keypadContexts lcdContexts
                           positionOf].
      apply (andThen_keeps sameRegistrations sameRegistrations_trans).
      - apply initializeNowPlaying_registrations.
      - intros _ w'. apply updateLCDAction_calls. }
    destruct K as [Kk [Kl Kp]]. simpl in Kk, Kl, Kp.
    rewrite Kk, Kl. unfold storedPosition. rewrite Kp, N.eqb_refl.
    repeat split; [apply setAdd_In|].
    destruct settingsPosition as [[|c s]|]; reflexivity.
Qed.

End SessionFacts.

Lemma initialize_sets_instance_witness :
  exists w',
    initializeNowPlaying noSubscriptionHost freshWorld = Returned tt w'
    /\ nowPlayingInstance w' = true.
Proof.
  destruct (initialize_sets_instance noSubscriptionHost freshWorld)
    as [w' [E [I _]]]; [intros h; reflexivity | reflexivity |].
  exists w'. split; [exact E | exact I].
Defined.

Lemma session_not_set_up_twice_witness :
  onlyCalls isDisplayCall (playingWorld midnightCity)
    (worldOf (keypadOnWillAppear quietHost 4 (playingWorld midnightCity))).
Proof.
  apply (session_not_set_up_twice recordingRaster quietHost 4 None).
  reflexivity.
Defined.

Lemma appearing_registers_witness :
  In 4%N (keypadContexts
            (worldOf (keypadOnWillAppear deafDeviceHost 4
                        (playingWorld midnightCity))))
  /\ storedPosition 5
       (worldOf (lcdOnWillAppear failingRaster deafDeviceHost 5
                   (Some (lit "right")) (playingWorld midnightCity)))
     = lit "right".
Proof.
  assert (Hlog : logsQuietly deafDeviceHost) by (intros h; reflexivity).
  split.
  - destruct (appearing_registers failingRaster deafDeviceHost 4 None
                (playingWorld midnightCity) Hlog) as [[_ [H _]] _].
    exact H.
  - destruct (appearing_registers failingRaster deafDeviceHost 5
                (Some (lit "right")) (playingWorld midnightCity) Hlog)
      as [_ [_ [_ [_ H]]]].
    exact H.
Defined.

Section CleanupFacts.

Variable env : host.

Lemma isEmpty_nil (s : list N) : isEmpty s = true -> s = [].
Proof. destruct s; [reflexivity | discriminate]. Qed.

Lemma unsubscribeIfUnused_facts (w : World) :
  logsQuietly env ->
  sameRegistrations w (worldOf (unsubscribeIfUnused env w))
  /\ (called Unsubscribe w (worldOf (unsubscribeIfUnused env w)) ->
      keypadContexts w = [] /\ lcdContexts w = []
      /\ nowPlayingInstance w = true)
  /\ (nowPlayingInstance w = true ->
      nowPlayingInstance (worldOf (unsubscribeIfUnused env w)) = false ->
      called Unsubscribe w (worldOf (unsubscribeIfUnused env w))
      /\ env (history w) Unsubscribe = false).
Proof.
  intros Hlog. unfold logsQuietly in Hlog. unfold unsubscribeIfUnused.
  destruct (isEmpty (keypadContexts w) && isEmpty (lcdContexts w)
            && nowPlayingInstance w) eqn:C.
  - apply andb_true_iff in C as [C Hi].
    apply andb_true_iff in C as [Hk Hl].
    apply isEmpty_nil in Hk, Hl.
    unfold andThen, attempt, perform, setInstance. simpl.
    destruct (env (history w) Unsubscribe) eqn:U; simpl;
      repeat rewrite Hlog; simpl.
    + split; [repeat split|]. split; [auto|].
      intros _ F. congruence.
    + split; [repeat split|]. split; [auto|].
      intros _ _. split; [|reflexivity].
      unfold called, continues; simpl. rewrite <- ?app_assoc. simpl.
      eexists. split; [reflexivity|]. now left.
  - simpl. split; [repeat split|]. split.
    + intros H. now apply not_called_without_calls in H.
    + intros Hi F. congruence.
Qed.

(** X28. An action that disappears is removed from its set. The media session
    is unsubscribed only when no action of either kind is left while an
    instance is set, and the instance is dropped only after that
    unsubscription returned: if it raises, the failure is logged and the
    instance stays set. Writing the log is assumed not to raise. *)
Theorem disappearing_unregisters (action : N) (w : World) :
  logsQuietly env ->
  let wk := worldOf (keypadOnWillDisappear env action w) in
  let wl := worldOf (lcdOnWillDisappear env action w) in
  (keypadContexts wk = setDelete action (keypadContexts w)
   /\ ~ In action (keypadContexts wk)
   /\ lcdContexts wk = lcdContexts w
   /\ (called Unsubscribe w wk ->
       keypadContexts wk = [] /\ lcdContexts wk = []
       /\ nowPlayingInstance w = true)
   /\ (nowPlayingInstance w = true -> nowPlayingInstance wk = false ->
       called Unsubscribe w wk))
  /\ (lcdContexts wl = setDelete action (lcdContexts w)
      /\ ~ In action (lcdContexts wl)
      /\ keypadContexts wl = keypadContexts w
      /\ (called Unsubscribe w wl ->
          keypadContexts wl = [] /\ lcdContexts wl = []
          /\ nowPlayingInstance w = true)
      /\ (nowPlayingInstance w = true -> nowPlayingInstance wl = false ->
          called Unsubscribe w wl)).
Proof.
  intros Hlog. pose proof Hlog as Hlog'. unfold logsQuietly in Hlog'.
  assert (Shift : forall w1 w',
             history w1 = history w ++ [Log] ->
             (called Unsubscribe w1 w' -> called Unsubscribe w w')
             /\ (onlyCalls anyCall w1 w' -> called Unsubscribe w w' ->
                 called Unsubscribe w1 w')).
  { intros w1 w' H1. split.
    - intros [n [Hn I]]. exists (Log :: n). unfold continues in *.
      split; [rewrite Hn, H1, <- app_assoc; reflexivity | now right].
    - intros [n1 [Hn1 _]] [n [Hn I]]. exists n1. split; [exact Hn1|].
      unfold continues in *. rewrite Hn1, H1, <- app_assoc in Hn.
      apply app_inv_head in Hn. subst n.
      destruct I as [I|I]; [discriminate I | exact I]. }
  assert (Ext : forall w1,
             onlyCalls anyCall w1 (worldOf (unsubscribeIfUnused env w1))).
  { intros w1. unfold unsubscribeIfUnused.
    destruct (isEmpty (keypadContexts w1) && isEmpty (lcdContexts w1)
              && nowPlayingInstance w1); [|apply onlyCalls_refl].
    unfold andThen, attempt, perform, setInstance. simpl.
    repeat match goal with
           | |- context [if env ?h ?c then _ else _] =>
               destruct (env h c); simpl
           end;
      unfold onlyCalls, continues; simpl; rewrite <- ?app_assoc; simpl;
      eexists; (split; [reflexivity | repeat constructor]). }
  cbv zeta. split.
  - set (w1 := {| nowPlayingInstance := nowPlayingInstance w;
                  currentTrackInfo := currentTrackInfo w;
                  keypadContexts := setDelete action (keypadContexts w);
                  lcdContexts := lcdContexts w;
                  positionOf := positionOf w;
                  history := history w ++ [Log] |}).
    assert (E : keypadOnWillDisappear env action w
                = unsubscribeIfUnused env w1).
    { unfold keypadOnWillDisappear, andThen, perform, setKeypadContexts,
        withHistory. rewrite Hlog'. reflexivity. }
    rewrite E.
    destruct (unsubscribeIfUnused_facts w1 Hlog) as [[Rk [Rl _]] [U D]].
    destruct (Shift w1 (worldOf (unsubscribeIfUnused env w1)) eq_refl)
      as [S1 S2].
    rewrite Rk, Rl. simpl.
    split; [reflexivity|]. split; [apply setDelete_not_In|].
    split; [reflexivity|]. split.
    + intros H. apply (S2 (Ext w1)) in H. apply U in H. exact H.
    + intros Hi F. apply S1. now apply D.
  - set (w1 := {| nowPlayingInstance := nowPlayingInstance w;
                  currentTrackInfo := currentTrackInfo w;
                  keypadContexts := keypadContexts w;
                  lcdContexts := setDelete action (lcdContexts w);
                  positionOf := positionOf w;
                  history := history w ++ [Log] |}).
    assert (E : lcdOnWillDisappear env action w
                = unsubscribeIfUnused env w1).
    { unfold lcdOnWillDisappear, andThen, perform, setLcdContexts,
        withHistory. rewrite Hlog'. reflexivity. }
    rewrite E.
    destruct (unsubscribeIfUnused_facts w1 Hlog) as [[Rk [Rl _]] [U D]].
    destruct (Shift w1 (worldOf (unsubscribeIfUnused env w1)) eq_refl)
      as [S1 S2].
    rewrite Rk, Rl. simpl.
    split; [reflexivity|]. split; [apply setDelete_not_In|].
    split; [reflexivity|]. split.
    + intros H. apply (S2 (Ext w1)) in H. apply U in H.
      destruct H as [A [B C]]. auto.
    + intros Hi F. apply S1. now apply D.
Qed.


End CleanupFacts.

Lemma disappearing_unregisters_witness :
  ~ In 1%N (keypadContexts
              (worldOf (keypadOnWillDisappear quietHost 1
                          (playingWorld midnightCity))))
  /\ nowPlayingInstance
       (worldOf (keypadOnWillDisappear quietHost 1
                   (playingWorld midnightCity))) = true.
Proof.
  assert (Hlog : logsQuietly quietHost) by (intros h; reflexivity).
  destruct (disappearing_unregisters quietHost 1 (playingWorld midnightCity)
              Hlog) as [[_ [H _]] _].
  split; [exact H | reflexivity].
Defined.

